(** * torchaudio-contrib: spectral front end, verified against its description

    A shallow embedding of [torchaudio_contrib/functional.py] and
    [torchaudio_contrib/layers.py].  Floating-point arrays are idealised as
    arrays of real numbers; integers are [Z] or [nat]; Python exceptions are
    an error result.  A tensor is its [shape] (as [torch.Size]) together with
    its entries as nested lists, outermost axis first. *)

From Stdlib Require Import Reals Lra Lia List ZArith Bool Arith Psatz.
From Stdlib Require Import Zfloor.
From Stdlib Require String.
Import String.StringSyntax.
Delimit Scope string_scope with string.
Import ListNotations.

Open Scope R_scope.

(* ================================================================== *)
(** * Part I.  The model                                               *)
(* ================================================================== *)

(** ** Python results *)

Inductive pyerr : Type :=
| TypeError
| AttributeError
| IndexError
| RuntimeError.

Inductive result (A : Type) : Type :=
| Ok (a : A)
| Raise (e : pyerr).

Arguments Ok {A} a.
Arguments Raise {A} e.

Definition bind {A B : Type} (r : result A) (k : A -> result B) : result B :=
  match r with
  | Ok a => k a
  | Raise e => Raise e
  end.

Notation "x <- e ;; k" := (bind e (fun x => k))
  (at level 61, e at next level, right associativity).

(** ** Tensors *)

Record tensor (A : Type) : Type := mkTensor { shape : list nat; data : A }.

Arguments mkTensor {A} shape data.
Arguments shape {A} t.
Arguments data {A} t.

(** [t.size(i)] *)
Definition size {A : Type} (t : tensor A) (i : nat) : nat := nth i (shape t) 0%nat.

Abbreviation vec := (list R) (only parsing).
Abbreviation mat := (list (list R)) (only parsing).
Abbreviation complex := (R * R)%type (only parsing).

(** A Python object as far as the window argument is concerned: [None], a
    tensor (only its shape matters), or any other object. *)
Inductive pyobj : Type :=
| PyNone
| PyTensor (window_shape : list nat)
| PyOther.

(** ** Elementwise primitives of the array library *)

(** [torch.linspace(start, end, steps)]: [steps] equally spaced points, both
    ends included; a single point is [start]. *)
Definition linspace (start stop : R) (steps : nat) : vec :=
  map (fun i => start + INR i * ((stop - start) / INR (steps - 1)))
      (seq 0 steps).

(** [torch.round]: to the nearest integer, ties to the even one. *)
Definition round (x : R) : Z :=
  let f := Zfloor x in
  let d := x - IZR f in
  if Rlt_dec d (1 / 2) then f
  else if Rlt_dec (1 / 2) d then (f + 1)%Z
  else if Z.even f then f else (f + 1)%Z.

(** [Tensor.long()]: truncation toward zero. *)
Definition long (x : R) : Z :=
  if Rle_dec 0 x then Zfloor x else Zceil x.

(** [torch.atan2(y, x)], with values in (-PI, PI]. *)
Definition atan2 (y x : R) : R :=
  if Rlt_dec 0 x then atan (y / x)
  else if Rlt_dec x 0 then
    if Rle_dec 0 y then atan (y / x) + PI else atan (y / x) - PI
  else
    if Rlt_dec 0 y then PI / 2
    else if Rlt_dec y 0 then - (PI / 2)
    else 0.

(** [torch.cumsum] along the last axis. *)
Fixpoint cumsum_from (acc : R) (l : vec) : vec :=
  match l with
  | [] => []
  | x :: l' => (acc + x) :: cumsum_from (acc + x) l'
  end.

Definition cumsum (l : vec) : vec := cumsum_from 0 l.

(** Elementwise binary operation on two arrays of one length. *)
Fixpoint map2 {A B C : Type} (f : A -> B -> C) (l1 : list A) (l2 : list B) : list C :=
  match l1, l2 with
  | a :: l1', b :: l2' => f a b :: map2 f l1' l2'
  | _, _ => []
  end.

(** ** functional.py: the mel scale *)

Definition _mel_to_hertz (mel : R) (htk : bool) : R :=
  if htk then 700 * (Rpower 10 (mel / 2595) - 1)
  else
    let f_min := 0 in
    let f_sp := 200 / 3 in
    let hz := f_min + f_sp * mel in
    let min_log_hz := 1000 in
    let min_log_mel := (min_log_hz - f_min) / f_sp in
    let logstep := ln (64 / 10) / 27 in
    if Rge_dec mel min_log_mel
    then min_log_hz * exp (logstep * (mel - min_log_mel))
    else hz.

Definition _hertz_to_mel (hz : R) (htk : bool) : R :=
  if htk then 2595 * (ln (1 + hz / 700) / ln 10)
  else
    let f_min := 0 in
    let f_sp := 200 / 3 in
    let mel := (hz - f_min) / f_sp in
    let min_log_hz := 1000 in
    let min_log_mel := (min_log_hz - f_min) / f_sp in
    let logstep := ln (64 / 10) / 27 in
    if Rge_dec hz min_log_hz
    then min_log_mel + ln (hz / min_log_hz) / logstep
    else mel.

(** ** functional.py: stft, at the level of shapes *)

Definition prod_shape (s : list nat) : nat := fold_right Nat.mul 1%nat s.

(** The edge-extension policies of [torch.nn.functional.pad]. *)
Inductive pad_mode : Type :=
| Constant
| Reflect
| Replicate
| Circular.

(** [F.pad(waveforms, (pad, pad), pad_mode)]: the last axis grows by [pad]
    on each side.  Reflection needs [pad] below the length of that axis and
    wrapping around needs it not above; otherwise the call raises. *)
Definition F_pad (s : list nat) (pad : Z) (mode : pad_mode) : result (list nat) :=
  match rev s with
  | [] => Raise RuntimeError
  | t :: lead =>
      let too_wide :=
        match mode with
        | Reflect => (Z.of_nat t <=? pad)%Z
        | Circular => (Z.of_nat t <? pad)%Z
        | _ => false
        end in
      if too_wide then Raise RuntimeError
      else Ok (rev lead ++ [(t + 2 * Z.to_nat pad)%nat])
  end.

(** [window.size(0)] *)
Definition window_size0 (window : pyobj) : result nat :=
  match window with
  | PyTensor (n :: _) => Ok n
  | PyTensor [] => Raise IndexError
  | _ => Raise AttributeError
  end.

Section Framing.

(** The external STFT primitive, as [stft] calls it:
    [torch.stft(waveforms, fft_len, hop_len, window=window,
    win_length=win_length, center=False)], from the shape of its input to
    the shape of its output. *)
Variable torch_stft : list nat -> Z -> Z -> pyobj -> nat -> result (list nat).

(** The body of [stft]: the value bound to the local [complex_specgrams]
    when the last statement has run. *)
Definition stft_locals (waveforms : list nat) (fft_len hop_len : Z)
    (window : pyobj) (pad : Z) (mode : pad_mode) : result (list nat) :=
  let add_batch_dim := (length waveforms =? 2)%nat in
  let waveforms := if add_batch_dim then 1%nat :: waveforms else waveforms in
  waveforms <- (if (0 <? pad)%Z then F_pad waveforms pad mode else Ok waveforms) ;;
  let leading_dims := removelast waveforms in
  let t := last waveforms 0%nat in
  waveforms <- (if (t =? 0)%nat then Raise RuntimeError
                else Ok [prod_shape leading_dims; t]) ;;
  win_length <- window_size0 window ;;
  complex_specgrams <- torch_stft waveforms fft_len hop_len window win_length ;;
  let complex_specgrams := leading_dims ++ tl complex_specgrams in
  let complex_specgrams :=
    if add_batch_dim then tl complex_specgrams else complex_specgrams in
  Ok complex_specgrams.

(** [stft] as called: the body has no [return] statement, so a call that
    raises nothing evaluates to [None]. *)
Definition stft (waveforms : list nat) (fft_len hop_len : Z)
    (window : pyobj) (pad : Z) (mode : pad_mode) : result pyobj :=
  _ <- stft_locals waveforms fft_len hop_len window pad mode ;;
  Ok PyNone.

End Framing.

(** Modelled from the spec: the external STFT primitive ([torch.stft], not
    part of the repository), called without centering.  It consumes a
    [(flattened_batch, time)] array and yields
    [(flattened_batch, fft_len/2+1, num_frames, 2)] with
    [num_frames = floor((time - fft_len)/hop_len) + 1 >= 1]; a non-positive
    [fft_len] or [hop_len], a window that is not 1-D of positive length, and
    a window longer than [fft_len] are errors. *)
Definition torch_stft_shape (s : list nat) (fft_len hop_len : Z) (window : pyobj)
    (win_length : nat) : result (list nat) :=
  match s, window with
  | [n; t], PyTensor [w] =>
      if ((0 <? fft_len) && (0 <? hop_len) && (fft_len <=? Z.of_nat t)
          && (0 <? Z.of_nat win_length) && (Z.of_nat win_length <=? fft_len)
          && (w =? win_length)%nat)%Z%bool
      then Ok [n; Z.to_nat (fft_len / 2 + 1);
               Z.to_nat ((Z.of_nat t - fft_len) / hop_len + 1); 2%nat]
      else Raise RuntimeError
  | _, _ => Raise RuntimeError
  end.

(** ** layers.py: STFT *)

(** [torch.hann_window(length)] *)
Definition hann_window (length : Z) : result pyobj :=
  if (length <? 0)%Z then Raise RuntimeError
  else Ok (PyTensor [Z.to_nat length]).

Definition _stft_defaults (fft_len : Z) (hop_len frame_len : option Z)
    (window : pyobj) : result (Z * Z * pyobj) :=
  let hop_len := match hop_len with None => (fft_len / 4)%Z | Some h => h end in
  window <- (match window with
             | PyNone =>
                 let length := match frame_len with
                               | None => fft_len
                               | Some l => l
                               end in
                 hann_window length
             | _ => Ok window
             end) ;;
  match window with
  | PyTensor _ => Ok (fft_len, hop_len, window)
  | _ => Raise TypeError
  end.

(** The state of an [STFT] layer after [__init__]. *)
Record STFT : Type := mkSTFT {
  stft_fft_len : Z;
  stft_hop_len : Z;
  stft_window : pyobj;
  stft_pad : Z;
  stft_pad_mode : pad_mode
}.

Definition STFT_init (fft_len : Z) (hop_len frame_len : option Z)
    (window : pyobj) (pad : Z) (mode : pad_mode) : result STFT :=
  d <- _stft_defaults fft_len hop_len frame_len window ;;
  let '(f, h, w) := d in
  Ok (mkSTFT f h w pad mode).

Definition STFT_forward (torch_stft : list nat -> Z -> Z -> pyobj -> nat
                                      -> result (list nat))
    (self : STFT) (waveforms : list nat) : result pyobj :=
  stft torch_stft waveforms (stft_fft_len self) (stft_hop_len self)
       (stft_window self) (stft_pad self) (stft_pad_mode self).

(** A window is genuine when it is a 1-D tensor of positive length. *)
Definition genuine_window (window : pyobj) : bool :=
  match window with
  | PyTensor [n] => (0 <? n)%nat
  | _ => false
  end.

(** ** functional.py: the mel filterbank *)

(** Python's [l[:-n]] for [n > 0]. *)
Definition drop_last {A : Type} (n : nat) (l : list A) : list A :=
  firstn (length l - n) l.

(** [create_mel_filter].  The two divisions are those of the reals: the
    matrix is the code's where no entry of [f_diff] is zero, which
    [0 <= min_freq < max_freq] ensures; at [min_freq = max_freq] the code
    divides 0 by 0 and its entries are not numbers. *)
Definition create_mel_filter (num_freqs num_mels : nat) (min_freq max_freq : R)
    (htk : bool) : tensor mat :=
  let m_min := _hertz_to_mel min_freq htk in
  let m_max := _hertz_to_mel max_freq htk in
  let stft_freqs := linspace min_freq max_freq num_freqs in
  let m_pts := linspace m_min m_max (num_mels + 2) in
  let f_pts := map (fun m => _mel_to_hertz m htk) m_pts in
  let f_diff := map2 Rminus (skipn 1 f_pts) (drop_last 1 f_pts) in
  let slopes := map (fun sf => map (fun fp => fp - sf) f_pts) stft_freqs in
  let down_slopes :=
    map (fun row => map2 Rdiv (map (fun s => -1 * s) (drop_last 2 row))
                              (drop_last 1 f_diff)) slopes in
  let up_slopes :=
    map (fun row => map2 Rdiv (skipn 2 row) (skipn 1 f_diff)) slopes in
  let mel_filterbank :=
    map2 (map2 (fun d u => Rmax (Rmin d u) 0)) down_slopes up_slopes in
  mkTensor [num_freqs; num_mels] mel_filterbank.

(** The sample frequencies and the boundary frequencies the filterbank is
    built from (the locals [stft_freqs] and [f_pts]). *)
Definition stft_freqs (num_freqs : nat) (min_freq max_freq : R) : vec :=
  linspace min_freq max_freq num_freqs.

Definition f_pts (num_mels : nat) (min_freq max_freq : R) (htk : bool) : vec :=
  map (fun m => _mel_to_hertz m htk)
      (linspace (_hertz_to_mel min_freq htk) (_hertz_to_mel max_freq htk)
                (num_mels + 2)).

(** The response of filter [j] at the frequency [sf], as [create_mel_filter]
    computes it from the boundary frequencies [fp]: the smaller of the two
    ramps, clamped at zero. *)
Definition triangle (fp : vec) (j : nat) (sf : R) : R :=
  Rmax (Rmin ((-1 * (nth j fp 0 - sf)) / (nth (j + 1) fp 0 - nth j fp 0))
             ((nth (j + 2) fp 0 - sf) / (nth (j + 2) fp 0 - nth (j + 1) fp 0)))
       0.

(** ** functional.py: applying a filterbank *)

(** A stack of matrices under any number of leading axes. *)
#[warnings="-register-all"]
Inductive batch : Type :=
| Matrix (m : mat)
| Batch (l : list batch).

Fixpoint batch_map (f : mat -> mat) (b : batch) : batch :=
  match b with
  | Matrix m => Matrix (f m)
  | Batch l => Batch (map (batch_map f) l)
  end.

(** [m.transpose(-2, -1)] of a matrix with [ncols] columns. *)
Definition transpose (ncols : nat) (m : mat) : mat :=
  map (fun j => map (fun row => nth j row 0) m) (seq 0 ncols).

Definition dot (u v : vec) : R := fold_right Rplus 0 (map2 Rmult u v).

(** [torch.matmul(a, b)] of two matrices, [b] with [bcols] columns. *)
Definition matmul (a : mat) (bcols : nat) (b : mat) : mat :=
  map (fun row => map (fun col => dot row col) (transpose bcols b)) a.

(** [apply_filterbank], for a spectrogram of shape [(..., num_freqs, time)]
    and a 2-D filterbank [(num_freqs, num_bands)]; the product contracts
    [num_freqs] and raises when the two lengths differ. *)
Definition apply_filterbank (mag_specgrams : tensor batch) (filterbank : tensor mat)
    : result (tensor batch) :=
  match rev (shape mag_specgrams), shape filterbank with
  | t :: f :: lead, [f'; n] =>
      if (f =? f')%nat
      then Ok (mkTensor (rev lead ++ [n; t])
                 (batch_map (fun m => transpose n (matmul (transpose t m) n
                                                          (data filterbank)))
                            (data mag_specgrams)))
      else Raise RuntimeError
  | _, _ => Raise RuntimeError
  end.

(** The identity matrix of order [n]. *)
Definition eye (n : nat) : tensor mat :=
  mkTensor [n; n]
    (map (fun i => map (fun j => if (i =? j)%nat then 1 else 0) (seq 0 n)) (seq 0 n)).

(** ** functional.py: complex helpers *)

Definition angle (z : complex) : R := atan2 (snd z) (fst z).

(** [torch.norm(z, 2, -1)] *)
Definition norm (z : complex) : R := sqrt (fst z * fst z + snd z * snd z).

(** ** functional.py: the phase vocoder *)

(** [torch.arange(0, stop, step)] *)
Definition arange (stop : nat) (step : R) : result vec :=
  if Rlt_dec 0 step
  then Ok (map (fun k => INR k * step)
               (seq 0 (Z.to_nat (Zceil (INR stop / step)))))
  else if Rlt_dec step 0
       then (if (stop =? 0)%nat then Ok [] else Raise RuntimeError)
       else Raise RuntimeError.

(** [l[i]] with Python's negative indices; [d] stands for an index error. *)
Definition getitem {A : Type} (l : list A) (i : Z) (d : A) : A :=
  if (i <? 0)%Z then nth (Z.to_nat (Z.of_nat (length l) + i)) l d
  else nth (Z.to_nat i) l d.

(** Broadcasting along one axis: sizes are equal, or one of them is 1. *)
Definition bcast_dim (n m : nat) : result nat :=
  if (n =? m)%nat then Ok n
  else if (n =? 1)%nat then Ok m
  else if (m =? 1)%nat then Ok n
  else Raise RuntimeError.

Definition bcast_map2 {A B C : Type} (f : A -> B -> C) (l1 : list A) (l2 : list B)
    : list C :=
  match l1, l2 with
  | [x], _ => map (f x) l2
  | _, [y] => map (fun a => f a y) l1
  | _, _ => map2 f l1 l2
  end.

(** The computation of [phase_vocoder] along the time axis of one frequency
    bin: [row] is that bin's frames, [phi] its row of [phi_advance]. *)
Definition phase_vocoder_row (time_steps : vec) (row : list complex) (phi : vec)
    : list complex :=
  let alphas := map (fun t => t - IZR (Zfloor t)) time_steps in
  let phase_0 := map angle (firstn 1 row) in
  let spect := row ++ [(0, 0); (0, 0)] in
  let spect_0 := map (fun t => getitem spect (long t) (0, 0)) time_steps in
  let spect_1 := map (fun t => getitem spect (long (t + 1)) (0, 0)) time_steps in
  let spect_0_angle := map angle spect_0 in
  let spect_1_angle := map angle spect_1 in
  let spect_0_norm := map norm spect_0 in
  let spect_1_norm := map norm spect_1 in
  let spect_phase :=
    bcast_map2 Rminus (map2 Rminus spect_1_angle spect_0_angle) phi in
  let spect_phase :=
    map (fun x => x - 2 * PI * IZR (round (x / (2 * PI)))) spect_phase in
  let phase := bcast_map2 Rplus spect_phase phi in
  let phase := phase_0 ++ drop_last 1 phase in
  let phase_acc := cumsum phase in
  let mag := map2 Rplus (map2 Rmult alphas spect_1_norm)
                        (map2 Rmult (map (fun a => 1 - a) alphas) spect_0_norm) in
  let spect_stretch_real := bcast_map2 Rmult mag (map cos phase_acc) in
  let spect_stretch_imag := bcast_map2 Rmult mag (map sin phase_acc) in
  combine spect_stretch_real spect_stretch_imag.

Abbreviation spec5 := (list (list (list (list (R * R))))) (only parsing).

(** [phase_vocoder], on [(batch, channel, num_bins, time, 2)] and a
    [phi_advance] of two axes, broadcast against [(num_bins, time)]. *)
Definition phase_vocoder (spect : tensor spec5) (rate : R) (phi_advance : tensor mat)
    : result (tensor spec5) :=
  match shape spect, shape phi_advance with
  | [b; c; f; t; 2%nat], [f'; w] =>
      time_steps <- arange t rate ;;
      f_ph <- bcast_dim f f' ;;
      t_ph <- bcast_dim (length time_steps) w ;;
      if (f_ph =? f)%nat
      then Ok (mkTensor [b; c; f; t_ph; 2%nat]
                 (map (map (fun chan =>
                              bcast_map2 (phase_vocoder_row time_steps) chan
                                         (data phi_advance)))
                      (data spect)))
      else Raise RuntimeError
  | _, _ => Raise RuntimeError
  end.

(** Named parts of [phase_vocoder_row], for a bin whose row of [phi_advance]
    is the single value [p]: the two bracketing frames of the zero-padded
    input at the time [t], the interpolated magnitude, the phase increment
    and the accumulated phase. *)
Definition frame_0 (row : list complex) (t : R) : complex :=
  getitem (row ++ [(0, 0); (0, 0)]) (long t) (0, 0).

Definition frame_1 (row : list complex) (t : R) : complex :=
  getitem (row ++ [(0, 0); (0, 0)]) (long (t + 1)) (0, 0).

Definition row_mag (row : list complex) (t : R) : R :=
  (t - IZR (Zfloor t)) * norm (frame_1 row t)
  + (1 - (t - IZR (Zfloor t))) * norm (frame_0 row t).

Definition row_phase (row : list complex) (p : R) (t : R) : R :=
  (fun x => x - 2 * PI * IZR (round (x / (2 * PI))))
    (angle (frame_1 row t) - angle (frame_0 row t) - p) + p.

Definition row_phase_acc (row : list complex) (p : R) (time_steps : vec) : vec :=
  cumsum (map angle (firstn 1 row) ++ drop_last 1 (map (row_phase row p) time_steps)).

(** What [torch.arange(0, num_frames, rate)] holds for a positive [rate]:
    the synthetic time steps and their number. *)
Definition new_frames (num_frames : nat) (rate : R) : nat :=
  Z.to_nat (Zceil (INR num_frames / rate)).

Definition time_steps (num_frames : nat) (rate : R) : vec :=
  map (fun k => INR k * rate) (seq 0 (new_frames num_frames rate)).

(** The frames of one bin, and one entry, of a spectrogram. *)
Definition bin_row (t : tensor spec5) (b c f : nat) : list complex :=
  nth f (nth c (nth b (data t) []) []) [].

Definition entry (t : tensor spec5) (b c f k : nat) : complex :=
  nth k (bin_row t b c f) (0, 0).

(** ** layers.py: StretchSpecTime *)

Record StretchSpecTime : Type := mkStretchSpecTime {
  sst_rate : R;
  sst_phi_advance : tensor mat
}.

Definition StretchSpecTime_init (rate : R) (hop_len : Z) (num_bins : nat)
    : StretchSpecTime :=
  let phi_advance := linspace 0 (PI * IZR hop_len) num_bins in
  mkStretchSpecTime rate
    (mkTensor [num_bins; 1%nat] (map (fun x => [x]) phi_advance)).

Definition StretchSpecTime_forward (self : StretchSpecTime)
    (complex_specgrams : tensor spec5) (rate : option R) : result (tensor spec5) :=
  let rate := match rate with None => sst_rate self | Some r => r end in
  phase_vocoder complex_specgrams rate (sst_phi_advance self).

(** ** Well-formed tensors: the entries fill the shape *)

Definition wf_mat (r c : nat) (m : mat) : Prop :=
  length m = r /\ Forall (fun row => length row = c) m.

Fixpoint wf_batch (s : list nat) (b : batch) : Prop :=
  match b with
  | Matrix m =>
      match s with
      | [r; c] => wf_mat r c m
      | _ => False
      end
  | Batch l =>
      match s with
      | n :: (_ :: _ :: _) as s' =>
          length l = n /\ fold_right (fun x acc => wf_batch s' x /\ acc) True l
      | _ => False
      end
  end.

Definition wf_spec5 (t : tensor spec5) : Prop :=
  match shape t with
  | [b; c; f; n; 2%nat] =>
      length (data t) = b /\
      Forall (fun bt => length bt = c /\
        Forall (fun ch => length ch = f /\
          Forall (fun row => length row = n) ch) bt) (data t)
  | _ => False
  end.

(* ================================================================== *)
(** * Part I, continued.  The rest of the two files                    *)
(* ================================================================== *)

(** A floating-point operation whose result is not a finite real number (a
    logarithm of a non-positive number, a division by zero, a zero base
    raised to a negative power) has no value in this model: it is [None],
    and so is every result computed from it.  The functions of this part
    are given on one element; on a tensor they apply to each element. *)

Definition obind {A B : Type} (o : option A) (k : A -> option B) : option B :=
  match o with
  | Some a => k a
  | None => None
  end.

Notation "x <-? e ;; k" := (obind e (fun x => k))
  (at level 61, e at next level, right associativity).

(** [torch.log10] *)
Definition log10 (x : R) : option R :=
  if Rlt_dec 0 x then Some (ln x / ln 10) else None.

(** [torch.log1p] *)
Definition log1p (x : R) : option R :=
  if Rlt_dec (-1) x then Some (ln (1 + x)) else None.

(** Floating-point division. *)
Definition fdiv (a b : R) : option R :=
  if Req_dec_T b 0 then None else Some (a / b).

(** [Tensor.sign()] *)
Definition sign (x : R) : R :=
  if Rlt_dec 0 x then 1 else if Rlt_dec x 0 then -1 else 0.

(** [Tensor.pow(power)] on a norm, which is never negative: a positive base
    is raised to the power, a zero base gives 0 for a positive power and 1
    for the power 0. *)
Definition norm_pow (x power : R) : option R :=
  if Rlt_dec 0 x then Some (Rpower x power)
  else if Req_dec_T x 0 then
    if Rlt_dec 0 power then Some 0
    else if Req_dec_T power 0 then Some 1
    else None
  else None.

(** ** functional.py: norm with a power, magnitude and phase *)

Definition complex_norm (complex_tensor : complex) (power : R) : option R :=
  if Req_dec_T power 1 then Some (norm complex_tensor)
  else norm_pow (norm complex_tensor) power.

Definition magphase (complex_tensor : complex) (power : R) : option (R * R) :=
  mag <-? complex_norm complex_tensor power ;;
  let phase := angle complex_tensor in
  Some (mag, phase).

(** ** functional.py: decibels *)

Definition amplitude_to_db (x ref amin : R) : option R :=
  let x := Rmax x amin in
  lx <-? log10 x ;;
  lref <-? log10 ref ;;
  Some (10 * (lx - lref)).

Definition db_to_amplitude (x ref : R) : option R :=
  lref <-? log10 ref ;;
  Some (Rpower 10 (x / 10 + lref)).

(** ** functional.py: mu-law companding *)

Definition mu_law_encoding (x : R) (n_quantize : Z) : option Z :=
  let mu := IZR (n_quantize - 1) in
  num <-? log1p (mu * Rabs x) ;;
  den <-? log1p mu ;;
  x_mu <-? fdiv (sign x * num) den ;;
  let x_mu := (x_mu + 1) / 2 * mu + 1 / 2 in
  Some (long x_mu).

Definition mu_law_decoding (x_mu : R) (n_quantize : Z) : option R :=
  let mu := IZR (n_quantize - 1) in
  q <-? fdiv x_mu mu ;;
  let x := q * 2 - 1 in
  l <-? log1p mu ;;
  fdiv (sign x * (exp (Rabs x * l) - 1)) mu.

(** Every entry of a stack of matrices satisfies [P]. *)
Fixpoint batch_all (P : R -> Prop) (b : batch) : Prop :=
  match b with
  | Matrix m => Forall (Forall P) m
  | Batch l => fold_right (fun x acc => batch_all P x /\ acc) True l
  end.

(** ** functional.py: downmixing *)

(** The mean of the values along one axis; it is not a number ([None]) when
    the axis is empty. *)
Definition fmean (l : list R) : option R :=
  match l with
  | [] => None
  | _ => Some (fold_right Rplus 0 l / INR (length l))
  end.

(** An axis argument of a tensor of rank [rank], negative values counting
    from the last axis. *)
Definition wrap_dim (d : Z) (rank : nat) : result nat :=
  if ((d <? - Z.of_nat rank) || (Z.of_nat rank <=? d))%Z%bool
  then Raise IndexError
  else Ok (Z.to_nat (if (d <? 0)%Z then d + Z.of_nat rank else d)).

(** [downmix_waveform]: [torch.mean(waveforms, ch_dim, keepdim=True)] on a
    tensor of shape [(B, C, T)] with the entries [waveforms]. *)
Definition downmix_waveform (B C T : nat) (waveforms : list (list (list R)))
    (ch_dim : Z) : result (tensor (list (list (list (option R))))) :=
  let get b c t := nth t (nth c (nth b waveforms []) []) 0 in
  d <- wrap_dim ch_dim 3 ;;
  match d with
  | 0%nat =>
      Ok (mkTensor [1%nat; C; T]
            [map (fun c =>
                    map (fun t => fmean (map (fun b => get b c t) (seq 0 B)))
                        (seq 0 T))
                 (seq 0 C)])
  | 1%nat =>
      Ok (mkTensor [B; 1%nat; T]
            (map (fun b =>
                    [map (fun t => fmean (map (fun c => get b c t) (seq 0 C)))
                         (seq 0 T)])
                 (seq 0 B)))
  | _ =>
      Ok (mkTensor [B; C; 1%nat]
            (map (fun b =>
                    map (fun c => [fmean (map (fun t => get b c t) (seq 0 T))])
                        (seq 0 C))
                 (seq 0 B)))
  end.

(** [downmix_spectrum]: the same mean on a tensor of shape [(B, C, F, T)]. *)
Definition downmix_spectrum (B C F T : nat)
    (mag_specgrams : list (list (list (list R)))) (ch_dim : Z)
    : result (tensor (list (list (list (list (option R)))))) :=
  let get b c f t := nth t (nth f (nth c (nth b mag_specgrams []) []) []) 0 in
  d <- wrap_dim ch_dim 4 ;;
  match d with
  | 0%nat =>
      Ok (mkTensor [1%nat; C; F; T]
            [map (fun c =>
                    map (fun f =>
                           map (fun t =>
                                  fmean (map (fun b => get b c f t) (seq 0 B)))
                               (seq 0 T))
                        (seq 0 F))
                 (seq 0 C)])
  | 1%nat =>
      Ok (mkTensor [B; 1%nat; F; T]
            (map (fun b =>
                    [map (fun f =>
                            map (fun t =>
                                   fmean (map (fun c => get b c f t) (seq 0 C)))
                                (seq 0 T))
                         (seq 0 F)])
                 (seq 0 B)))
  | 2%nat =>
      Ok (mkTensor [B; C; 1%nat; T]
            (map (fun b =>
                    map (fun c =>
                           [map (fun t =>
                                   fmean (map (fun f => get b c f t) (seq 0 F)))
                                (seq 0 T)])
                        (seq 0 C))
                 (seq 0 B)))
  | _ =>
      Ok (mkTensor [B; C; F; 1%nat]
            (map (fun b =>
                    map (fun c =>
                           map (fun f =>
                                  [fmean (map (fun t => get b c f t) (seq 0 T))])
                               (seq 0 F))
                        (seq 0 C))
                 (seq 0 B)))
  end.

(** ** layers.py: the remaining layers and factories *)

(** Exceptions beyond those of the first part. *)
Inductive exn : Type :=
| Builtin (e : pyerr)
| ValueError
| NameError
| KeyError
| AssertionError.

Inductive outcome (A : Type) : Type :=
| Return (a : A)
| Throw (e : exn).

Arguments Return {A} a.
Arguments Throw {A} e.

Definition lift {A : Type} (r : result A) : outcome A :=
  match r with
  | Ok a => Return a
  | Raise e => Throw (Builtin e)
  end.

Definition tbind {A B : Type} (o : outcome A) (k : A -> outcome B) : outcome B :=
  match o with
  | Return a => k a
  | Throw e => Throw e
  end.

Notation "x <-! e ;; k" := (tbind e (fun x => k))
  (at level 61, e at next level, right associativity).

(** [DownmixWaveform.forward] and [DownmixSpectrum.forward]: the channel
    axis is the default, 1. *)
Definition DownmixWaveform_forward (B C T : nat) (waveform : list (list (list R)))
    : result (tensor (list (list (list (option R))))) :=
  downmix_waveform B C T waveform 1.

Definition DownmixSpectrum_forward (B C F T : nat)
    (mag_specgram : list (list (list (list R))))
    : result (tensor (list (list (list (list (option R)))))) :=
  downmix_spectrum B C F T mag_specgram 1.

(** [MelFilterbank]: the fields after [__init__].  A [max_freq] that is
    [None] or [0.0] is false in the conditional expression and replaced by
    [sample_rate // 2]. *)
Record MelFilterbank : Type := mkMelFilterbank {
  mf_num_freqs : nat;
  mf_num_mels : nat;
  mf_min_freq : R;
  mf_max_freq : R;
  mf_htk : bool
}.

Definition MelFilterbank_init (num_freqs num_mels : nat) (min_freq : R)
    (max_freq : option R) (sample_rate : option Z) (htk : bool)
    : outcome MelFilterbank :=
  match sample_rate, max_freq with
  | None, None => Throw ValueError
  | _, _ =>
      let fallback :=
        match sample_rate with
        | Some sr => Return (IZR (sr / 2))
        | None => Throw (Builtin TypeError)
        end in
      max_freq <-! (match max_freq with
                    | Some m => if Req_dec_T m 0 then fallback else Return m
                    | None => fallback
                    end) ;;
      Return (mkMelFilterbank num_freqs num_mels min_freq max_freq htk)
  end.

Definition MelFilterbank_get_filterbank (self : MelFilterbank) : tensor mat :=
  create_mel_filter (mf_num_freqs self) (mf_num_mels self) (mf_min_freq self)
                    (mf_max_freq self) (mf_htk self).

(** [Spectrogram]: the stack of [STFT] and [ComplexNorm] is built, the name
    [SpectralDownmix] that the [mono] branch calls is bound nowhere, and the
    body ends without a [return]. *)
Definition Spectrogram (fft_len : Z) (hop_len frame_len : option Z)
    (window : pyobj) (pad : Z) (mode : pad_mode) (power : R) (mono : bool)
    : outcome pyobj :=
  _ <-! lift (STFT_init fft_len hop_len frame_len window pad mode) ;;
  if mono then Throw NameError else Return PyNone.

(** The keyword arguments [Melspectrogram] passes on to [Spectrogram]; an
    absent one takes the default of [Spectrogram]. *)
Record spectrogram_kwargs : Type := mkKwargs {
  kw_fft_len : option Z;
  kw_hop_len : option Z;
  kw_frame_len : option Z;
  kw_window : option pyobj;
  kw_pad : option Z;
  kw_pad_mode : option pad_mode;
  kw_power : option R;
  kw_mono : option bool
}.

Definition default {A : Type} (o : option A) (d : A) : A :=
  match o with
  | Some a => a
  | None => d
  end.

(** [Melspectrogram].  [mel_filterbank] is [None] or a class of the caller,
    given by what [mel_filterbank(...).get_filterbank()] does.  The argument
    [num_freqs] is overwritten before it is read, and a negative count of
    frequency samples makes [torch.linspace] raise in [get_filterbank]; a
    [power] among the keyword arguments collides with [power=2.]; unpacking
    the [None] that [Spectrogram] returns is a [TypeError]. *)
Definition Melspectrogram (num_mels : nat) (sample_rate : option Z)
    (min_freq : R) (max_freq : option R) (num_freqs : option Z) (htk : bool)
    (mel_filterbank :
       option (nat -> option Z -> R -> option R -> Z -> bool
               -> outcome (tensor mat)))
    (kwargs : spectrogram_kwargs) : outcome pyobj :=
  let fft_len := kw_fft_len kwargs in
  let num_freqs :=
    match fft_len with
    | Some f => if (f =? 0)%Z then 1025%Z else (f / 2 + 1)%Z
    | None => 1025%Z
    end in
  let mel_filterbank :=
    match mel_filterbank with
    | Some custom => custom
    | None =>
        fun num_mels sample_rate min_freq max_freq num_freqs htk =>
          self <-! MelFilterbank_init (Z.to_nat num_freqs) num_mels min_freq
                                      max_freq sample_rate htk ;;
          if (num_freqs <? 0)%Z then Throw (Builtin RuntimeError)
          else Return (MelFilterbank_get_filterbank self)
    end in
  mel_fb_matrix <-! mel_filterbank num_mels sample_rate min_freq max_freq
                                   num_freqs htk ;;
  modules <-! (match kw_power kwargs with
               | Some _ => Throw (Builtin TypeError)
               | None =>
                   Spectrogram (default (kw_fft_len kwargs) 2048%Z)
                               (kw_hop_len kwargs) (kw_frame_len kwargs)
                               (default (kw_window kwargs) PyNone)
                               (default (kw_pad kwargs) 0%Z)
                               (default (kw_pad_mode kwargs) Reflect)
                               2 (default (kw_mono kwargs) true)
               end) ;;
  match modules with
  | PyNone => Throw (Builtin TypeError)
  | _ => Return PyOther
  end.

(** [AmplitudeToDb] and [DbToAmplitude]. *)
Record AmplitudeToDb : Type := mkAmplitudeToDb { a2d_ref : R; a2d_amin : R }.

Definition AmplitudeToDb_init (ref amin : R) : outcome AmplitudeToDb :=
  if Rlt_dec amin ref then Return (mkAmplitudeToDb ref amin)
  else Throw AssertionError.

Definition AmplitudeToDb_forward (self : AmplitudeToDb) (x : R) : option R :=
  amplitude_to_db x (a2d_ref self) (a2d_amin self).

Definition DbToAmplitude_forward (ref : R) (x : R) : option R :=
  db_to_amplitude x ref.

(** ** layers.py: _ModuleNoStateBuffers *)

(** A dictionary with string keys, in insertion order: a list of pairs with
    distinct keys.  [del d[k]] raises [KeyError] for an absent key. *)
Definition dict (V : Type) : Type := list (String.string * V).

Definition dict_has {V : Type} (d : dict V) (k : String.string) : bool :=
  existsb (fun kv => String.eqb (fst kv) k) d.

Definition dict_del {V : Type} (d : dict V) (k : String.string) : outcome (dict V) :=
  if dict_has d k
  then Return (filter (fun kv => negb (String.eqb (fst kv) k)) d)
  else Throw KeyError.

(** [state_dict]: [ret] is what [nn.Module.state_dict] returned, [buffers]
    the names in [self._buffers]; each [prefix + k] is deleted from [ret]. *)
Definition state_dict {V : Type} (ret : dict V) (buffers : list String.string)
    (prefix : String.string) : outcome (dict V) :=
  fold_left (fun ret k => ret <-! ret ;; dict_del ret (String.append prefix k))
            buffers (Return ret).

(* ================================================================== *)
(** * Part II.  Properties                                             *)
(* ================================================================== *)

(** ** The framing operation *)

Lemma torch_stft_shape_ok (n t w : nat) (fft_len hop_len : Z) :
  (0 < fft_len)%Z -> (0 < hop_len)%Z -> (fft_len <= Z.of_nat t)%Z ->
  (0 < w)%nat -> (Z.of_nat w <= fft_len)%Z ->
  torch_stft_shape [n; t] fft_len hop_len (PyTensor [w]) w
  = Ok [n; Z.to_nat (fft_len / 2 + 1);
        Z.to_nat ((Z.of_nat t - fft_len) / hop_len + 1); 2%nat].
Proof.
  intros Hf Hh Ht Hw Hwf. unfold torch_stft_shape.
  replace (0 <? fft_len)%Z with true by (symmetry; apply Z.ltb_lt; lia).
  replace (0 <? hop_len)%Z with true by (symmetry; apply Z.ltb_lt; lia).
  replace (fft_len <=? Z.of_nat t)%Z with true by (symmetry; apply Z.leb_le; lia).
  replace (0 <? Z.of_nat w)%Z with true by (symmetry; apply Z.ltb_lt; lia).
  replace (Z.of_nat w <=? fft_len)%Z with true by (symmetry; apply Z.leb_le; lia).
  rewrite Nat.eqb_refl. reflexivity.
Qed.

Lemma F_pad_ok (lead : list nat) (t : nat) (pad : Z) (mode : pad_mode) :
  (pad < Z.of_nat t)%Z ->
  F_pad (lead ++ [t]) pad mode = Ok (lead ++ [(t + 2 * Z.to_nat pad)%nat]).
Proof.
  intros H. unfold F_pad. rewrite rev_app_distr. cbn [rev app].
  rewrite rev_involutive.
  replace (Z.of_nat t <=? pad)%Z with false by (symmetry; apply Z.leb_gt; lia).
  replace (Z.of_nat t <? pad)%Z with false by (symmetry; apply Z.ltb_ge; lia).
  destruct mode; reflexivity.
Qed.

(** What the body of [stft] computes for a batched waveform [(B, C, T)]: the
    documented shape is bound to the local [complex_specgrams]. *)
Lemma stft_locals_batched (b c t w : nat) (fft_len hop_len pad : Z)
    (mode : pad_mode) :
  (0 < fft_len)%Z -> (0 < hop_len)%Z -> (0 <= pad)%Z ->
  (pad < Z.of_nat t \/ pad = 0)%Z ->
  (fft_len <= Z.of_nat t + 2 * pad)%Z ->
  (0 < w)%nat -> (Z.of_nat w <= fft_len)%Z ->
  stft_locals torch_stft_shape [b; c; t] fft_len hop_len (PyTensor [w]) pad mode
  = Ok [b; c; Z.to_nat (fft_len / 2 + 1);
        Z.to_nat ((Z.of_nat t + 2 * pad - fft_len) / hop_len + 1); 2%nat].
Proof.
  intros Hf Hh Hp Hpt Ht Hw Hwf. unfold stft_locals.
  cbn [length Nat.eqb]. destruct (Z.ltb_spec 0 pad) as [P | P].
  - change [b; c; t] with ([b; c] ++ [t]).
    rewrite (F_pad_ok [b; c] t pad mode) by lia.
    cbn [rev app bind removelast last].
    assert (Et : (t + 2 * Z.to_nat pad =? 0)%nat = false)
      by (apply Nat.eqb_neq; lia).
    rewrite Et. cbn [bind window_size0].
    rewrite torch_stft_shape_ok by lia. cbn [bind tl app].
    replace (Z.of_nat (t + 2 * Z.to_nat pad)) with (Z.of_nat t + 2 * pad)%Z by lia.
    reflexivity.
  - assert (pad = 0%Z) by lia. subst pad.
    cbn [bind removelast last].
    assert (Et : (t =? 0)%nat = false) by (apply Nat.eqb_neq; lia).
    rewrite Et. cbn [bind window_size0].
    rewrite torch_stft_shape_ok by lia. cbn [bind tl app].
    replace (Z.of_nat t + 2 * 0)%Z with (Z.of_nat t) by lia. reflexivity.
Qed.

(** The same for a waveform [(C, T)]: the batch axis of size 1 added for the
    padding is removed again. *)
Lemma stft_locals_unbatched (c t w : nat) (fft_len hop_len pad : Z)
    (mode : pad_mode) :
  (0 < fft_len)%Z -> (0 < hop_len)%Z -> (0 <= pad)%Z ->
  (pad < Z.of_nat t \/ pad = 0)%Z ->
  (fft_len <= Z.of_nat t + 2 * pad)%Z ->
  (0 < w)%nat -> (Z.of_nat w <= fft_len)%Z ->
  stft_locals torch_stft_shape [c; t] fft_len hop_len (PyTensor [w]) pad mode
  = Ok [c; Z.to_nat (fft_len / 2 + 1);
        Z.to_nat ((Z.of_nat t + 2 * pad - fft_len) / hop_len + 1); 2%nat].
Proof.
  intros Hf Hh Hp Hpt Ht Hw Hwf. unfold stft_locals.
  cbn [length Nat.eqb]. destruct (Z.ltb_spec 0 pad) as [P | P].
  - change (1%nat :: [c; t]) with ([1%nat; c] ++ [t]).
    rewrite (F_pad_ok [1%nat; c] t pad mode) by lia.
    cbn [rev app bind removelast last].
    assert (Et : (t + 2 * Z.to_nat pad =? 0)%nat = false)
      by (apply Nat.eqb_neq; lia).
    rewrite Et. cbn [bind window_size0].
    rewrite torch_stft_shape_ok by lia. cbn [bind tl app].
    replace (Z.of_nat (t + 2 * Z.to_nat pad)) with (Z.of_nat t + 2 * pad)%Z by lia.
    reflexivity.
  - assert (pad = 0%Z) by lia. subst pad.
    cbn [bind removelast last].
    assert (Et : (t =? 0)%nat = false) by (apply Nat.eqb_neq; lia).
    rewrite Et. cbn [bind window_size0].
    rewrite torch_stft_shape_ok by lia. cbn [bind tl app].
    replace (Z.of_nat t + 2 * 0)%Z with (Z.of_nat t) by lia. reflexivity.
Qed.

(** C1.  [stft] builds the spectrogram of the documented shape in its local
    [complex_specgrams] but never returns it: whatever the STFT primitive
    does, no call evaluates to a tensor, and on the waveform [(2, 16)] with
    [fft_len = 8], [hop_len = 4] and a window of length 8 the call evaluates
    to [None] although the local holds the shape [(2, 5, 3, 2)]. *)
Theorem stft_returns_none :
  (forall torch_stft waveforms fft_len hop_len window pad mode s,
      stft torch_stft waveforms fft_len hop_len window pad mode
      <> Ok (PyTensor s)) /\
  stft torch_stft_shape [2; 16]%nat 8 4 (PyTensor [8%nat]) 0 Reflect
  = Ok PyNone /\
  stft_locals torch_stft_shape [2; 16]%nat 8 4 (PyTensor [8%nat]) 0 Reflect
  = Ok [2; 5; 3; 2]%nat.
Proof.
  split; [| split; reflexivity].
  intros torch_stft waveforms fft_len hop_len window pad mode s. unfold stft.
  destruct (stft_locals torch_stft waveforms fft_len hop_len window pad mode);
    cbn; discriminate.
Qed.

Lemma bind_raises {A B : Type} (r : result A) (k : A -> result B) :
  (forall a, exists e, k a = Raise e) -> exists e, bind r k = Raise e.
Proof.
  intros H. destruct r as [a | e]; cbn; [apply H | eexists; reflexivity].
Qed.

(** The STFT primitive refuses every window that is not genuine, whatever
    the signal and the window length it is told. *)
Lemma torch_stft_shape_refuses (s : list nat) (fft_len hop_len : Z)
    (window : pyobj) (win_length : nat) :
  genuine_window window = false ->
  torch_stft_shape s fft_len hop_len window win_length = Raise RuntimeError.
Proof.
  intros Hg. unfold torch_stft_shape.
  destruct s as [| n [| t [| x s]]]; try reflexivity;
    try (destruct window as [| [| w [| w' ws]] |]; reflexivity).
  destruct window as [| [| w [| w' ws]] |]; try reflexivity.
  cbn in Hg. destruct w as [| w]; [| discriminate Hg].
  destruct win_length as [| k].
  - cbn [Z.of_nat Z.ltb Z.compare]. rewrite andb_false_r, andb_false_l.
    reflexivity.
  - cbn [Nat.eqb]. rewrite andb_false_r. reflexivity.
Qed.

Lemma stft_locals_rejects_window (waveforms : list nat) (fft_len hop_len : Z)
    (window : pyobj) (pad : Z) (mode : pad_mode) :
  genuine_window window = false ->
  exists e,
    stft_locals torch_stft_shape waveforms fft_len hop_len window pad mode
    = Raise e.
Proof.
  intros Hg. unfold stft_locals. cbv zeta.
  apply bind_raises. intros padded.
  apply bind_raises. intros flat.
  destruct (window_size0 window) as [win_length | e] eqn:Hw; cbn [bind];
    [| eexists; reflexivity].
  rewrite (torch_stft_shape_refuses flat fft_len hop_len window win_length Hg).
  eexists. reflexivity.
Qed.

(** C8.  Every invocation of the framing operation with a window that is not
    a 1-D tensor of positive length ends in an error and computes no frame:
    [stft] and [STFT.forward] raise, either at [window.size(0)] or because
    the STFT primitive refuses the window, which it does for every signal;
    a window of the wrong type is refused with [TypeError] already when the
    layer is configured. *)
Theorem stft_rejects_window (waveforms : list nat) (fft_len hop_len : Z)
    (window : pyobj) (pad : Z) (mode : pad_mode) :
  genuine_window window = false ->
  (exists e,
      stft torch_stft_shape waveforms fft_len hop_len window pad mode = Raise e) /\
  (exists e,
      STFT_forward torch_stft_shape
                   (mkSTFT fft_len hop_len window pad mode) waveforms = Raise e) /\
  (forall s win_length,
      torch_stft_shape s fft_len hop_len window win_length = Raise RuntimeError) /\
  (forall hop frame_len,
      STFT_init fft_len hop frame_len PyOther pad mode = Raise TypeError).
Proof.
  intros Hg.
  destruct (stft_locals_rejects_window waveforms fft_len hop_len window pad mode
              Hg) as [e He].
  split; [| split; [| split]].
  - exists e. unfold stft. rewrite He. reflexivity.
  - exists e. unfold STFT_forward, stft. cbn [stft_fft_len stft_hop_len
      stft_window stft_pad stft_pad_mode]. rewrite He. reflexivity.
  - intros s win_length. apply torch_stft_shape_refuses. exact Hg.
  - intros hop frame_len. reflexivity.
Qed.

Lemma stft_rejects_window_witness :
  genuine_window (PyTensor [2; 3]%nat) = false /\
  (exists e,
      stft torch_stft_shape [2; 16]%nat 8 4 (PyTensor [2; 3]%nat) 0 Reflect
      = Raise e) /\
  (exists e,
      STFT_forward torch_stft_shape
                   (mkSTFT 8 4 (PyTensor [2; 3]%nat) 0 Reflect) [2; 16]%nat
      = Raise e) /\
  (forall s win_length,
      torch_stft_shape s 8 4 (PyTensor [2; 3]%nat) win_length
      = Raise RuntimeError) /\
  (forall hop frame_len,
      STFT_init 8 hop frame_len PyOther 0 Reflect = Raise TypeError).
Proof.
  split; [reflexivity |].
  apply (stft_rejects_window [2; 16]%nat 8 4 (PyTensor [2; 3]%nat) 0 Reflect).
  reflexivity.
Defined.

(** ** The mel scale *)

Lemma ln_10_pos : 0 < ln 10.
Proof. rewrite <- ln_1. apply ln_increasing; lra. Qed.

Lemma logstep_pos : 0 < ln (64 / 10) / 27.
Proof.
  assert (0 < ln (64 / 10)) by (rewrite <- ln_1; apply ln_increasing; lra).
  lra.
Qed.

Lemma ln_nonneg (x : R) : 1 <= x -> 0 <= ln x.
Proof.
  intros [H | H].
  - left. rewrite <- ln_1. apply ln_increasing; lra.
  - subst. rewrite ln_1. lra.
Qed.

Lemma hertz_to_mel_slaney_low (hz : R) :
  hz < 1000 -> _hertz_to_mel hz false = hz / (200 / 3).
Proof.
  intros H. unfold _hertz_to_mel. cbv zeta.
  destruct (Rge_dec hz 1000) as [G | G]; [lra |]. f_equal. lra.
Qed.

Lemma hertz_to_mel_slaney_high (hz : R) :
  1000 <= hz -> _hertz_to_mel hz false = 15 + ln (hz / 1000) / (ln (64 / 10) / 27).
Proof.
  intros H. unfold _hertz_to_mel. cbv zeta.
  destruct (Rge_dec hz 1000) as [G | G]; [| lra]. f_equal. lra.
Qed.

Lemma mel_to_hertz_slaney_low (mel : R) :
  mel < 15 -> _mel_to_hertz mel false = 200 / 3 * mel.
Proof.
  intros H. unfold _mel_to_hertz. cbv zeta.
  destruct (Rge_dec mel ((1000 - 0) / (200 / 3))) as [G | G]; lra.
Qed.

Lemma mel_to_hertz_slaney_high (mel : R) :
  15 <= mel ->
  _mel_to_hertz mel false = 1000 * exp (ln (64 / 10) / 27 * (mel - 15)).
Proof.
  intros H. unfold _mel_to_hertz. cbv zeta.
  destruct (Rge_dec mel ((1000 - 0) / (200 / 3))) as [G | G]; [| lra].
  do 3 f_equal. lra.
Qed.

(** C5.  Over the reals [_mel_to_hertz] undoes [_hertz_to_mel] on every
    non-negative frequency, for the HTK formula and for the piecewise
    linear/logarithmic one. *)
Theorem mel_hertz_roundtrip (hz : R) (htk : bool) :
  0 <= hz -> _mel_to_hertz (_hertz_to_mel hz htk) htk = hz.
Proof.
  intros Hhz. destruct htk.
  - unfold _mel_to_hertz, _hertz_to_mel, Rpower.
    assert (L := ln_10_pos).
    replace (2595 * (ln (1 + hz / 700) / ln 10) / 2595 * ln 10)
      with (ln (1 + hz / 700)) by (field; lra).
    rewrite exp_ln by lra. lra.
  - destruct (Rlt_dec hz 1000) as [Lo | Hi].
    + rewrite hertz_to_mel_slaney_low by assumption.
      rewrite mel_to_hertz_slaney_low by lra. lra.
    + assert (Hge : 1000 <= hz) by lra.
      assert (S := logstep_pos).
      assert (N : 0 <= ln (hz / 1000)) by (apply ln_nonneg; lra).
      rewrite hertz_to_mel_slaney_high by assumption.
      assert (Q : 0 <= ln (hz / 1000) / (ln (64 / 10) / 27)).
      { apply Rmult_le_pos; [assumption |].
        left; apply Rinv_0_lt_compat; assumption. }
      rewrite mel_to_hertz_slaney_high by lra.
      replace (ln (64 / 10) / 27 * (15 + ln (hz / 1000) / (ln (64 / 10) / 27) - 15))
        with (ln (hz / 1000)) by (field; lra).
      rewrite exp_ln by lra. lra.
Qed.

Lemma mel_hertz_roundtrip_witness :
  0 <= 440 /\ _mel_to_hertz (_hertz_to_mel 440 false) false = 440.
Proof. split; [lra | apply (mel_hertz_roundtrip 440 false); lra]. Defined.

(** ** Equally spaced points *)

Lemma length_linspace (a b : R) (n : nat) : length (linspace a b n) = n.
Proof. unfold linspace. rewrite length_map, length_seq. reflexivity. Qed.

Lemma nth_linspace (a b : R) (n k : nat) (d : R) :
  (k < n)%nat ->
  nth k (linspace a b n) d = a + INR k * ((b - a) / INR (n - 1)).
Proof.
  intros H. unfold linspace.
  rewrite (nth_indep _ d (a + INR 0 * ((b - a) / INR (n - 1))))
    by (rewrite length_map, length_seq; exact H).
  rewrite (map_nth (fun i => a + INR i * ((b - a) / INR (n - 1)))).
  rewrite seq_nth by exact H. reflexivity.
Qed.

Lemma linspace_increasing (a b : R) (n i j : nat) :
  a < b -> (i < j)%nat -> (j < n)%nat ->
  nth i (linspace a b n) 0 < nth j (linspace a b n) 0.
Proof.
  intros Hab Hij Hjn.
  rewrite !nth_linspace by lia.
  assert (Hn : 0 < INR (n - 1)) by (apply lt_0_INR; lia).
  assert (Hs : 0 < (b - a) / INR (n - 1)).
  { apply Rmult_lt_0_compat; [lra | apply Rinv_0_lt_compat; exact Hn]. }
  assert (Hk : INR i < INR j) by (apply lt_INR; exact Hij).
  nra.
Qed.

(** ** The phase-advance table *)

(** C4, as stated, fails: for [hop_len = 1] and [num_bins = 2] the entry at
    bin 1 is [PI], not [PI * 1 * 1 / 2]. *)
Lemma phi_advance_entry_counterexample :
  nth 1 (data (sst_phi_advance (StretchSpecTime_init 1 1 2))) []
  <> [PI * IZR 1 * INR 1 / INR 2].
Proof.
  cbn. intros H. injection H as H.
  assert (P := PI_RGT_0). lra.
Qed.

(** C4, amended.  The table is [linspace(0, PI * hop_len, num_bins)] as a
    column [(num_bins, 1)], and its entry at bin [k] is
    [PI * hop_len * k / (num_bins - 1)]. *)
Theorem phi_advance_table (rate : R) (hop_len : Z) (num_bins k : nat) :
  (k < num_bins)%nat ->
  sst_phi_advance (StretchSpecTime_init rate hop_len num_bins)
  = mkTensor [num_bins; 1%nat]
             (map (fun x => [x]) (linspace 0 (PI * IZR hop_len) num_bins)) /\
  nth k (data (sst_phi_advance (StretchSpecTime_init rate hop_len num_bins))) []
  = [PI * IZR hop_len * INR k / INR (num_bins - 1)].
Proof.
  intros H. split; [reflexivity |].
  cbn [StretchSpecTime_init sst_phi_advance data].
  rewrite (nth_indep _ _ [0]) by (rewrite length_map, length_linspace; exact H).
  rewrite (map_nth (fun x : R => [x]) (linspace 0 (PI * IZR hop_len) num_bins) 0 k).
  rewrite nth_linspace by exact H. f_equal. unfold Rdiv. ring.
Qed.

Lemma phi_advance_table_witness :
  (1 < 3)%nat /\
  nth 1 (data (sst_phi_advance (StretchSpecTime_init 1 512 3))) []
  = [PI * IZR 512 * INR 1 / INR (3 - 1)].
Proof.
  split; [lia | apply (phi_advance_table 1 512 3 1); lia].
Defined.

(** ** Lists: positions in maps and zips *)

Lemma length_map2 {A B C : Type} (f : A -> B -> C) (l1 : list A) (l2 : list B) :
  length (map2 f l1 l2) = Nat.min (length l1) (length l2).
Proof.
  revert l2. induction l1 as [| a l1 IH]; intros [| b l2]; cbn; auto.
Qed.

Lemma nth_map2 {A B C : Type} (f : A -> B -> C) (l1 : list A) (l2 : list B)
    (k : nat) (d1 : A) (d2 : B) (d : C) :
  (k < length l1)%nat -> (k < length l2)%nat ->
  nth k (map2 f l1 l2) d = f (nth k l1 d1) (nth k l2 d2).
Proof.
  revert l2 k. induction l1 as [| a l1 IH]; intros [| b l2] [| k]; cbn;
    intros H1 H2; try lia; auto.
  apply IH; lia.
Qed.

Lemma map2_map_same {A B C D : Type} (f : B -> C -> D) (g : A -> B) (h : A -> C)
    (l : list A) :
  map2 f (map g l) (map h l) = map (fun x => f (g x) (h x)) l.
Proof. induction l as [| a l IH]; cbn; [reflexivity | now rewrite IH]. Qed.

Lemma nth_map_in {A B : Type} (f : A -> B) (l : list A) (k : nat) (d : A) (d' : B) :
  (k < length l)%nat -> nth k (map f l) d' = f (nth k l d).
Proof.
  intros H. rewrite (nth_indep _ d' (f d)) by (rewrite length_map; exact H).
  apply map_nth.
Qed.

Lemma map_nth_seq {A : Type} (l : list A) (d : A) :
  map (fun i => nth i l d) (seq 0 (length l)) = l.
Proof.
  apply (nth_ext _ _ d d).
  - rewrite length_map, length_seq. reflexivity.
  - intros k Hk. rewrite length_map, length_seq in Hk.
    rewrite (nth_map_in _ _ _ 0%nat) by (rewrite length_seq; exact Hk).
    rewrite seq_nth by exact Hk. reflexivity.
Qed.

(** ** Applying a filterbank *)

(** Induction on a stack of matrices, with the hypothesis available for
    every member of a batch. *)
Lemma batch_induction (P : batch -> Prop) :
  (forall m, P (Matrix m)) ->
  (forall l, Forall P l -> P (Batch l)) ->
  forall b, P b.
Proof.
  intros P_matrix P_batch. fix IH 1. intros [m | l].
  - apply P_matrix.
  - apply P_batch. induction l as [| x l IHl]; constructor.
    + apply IH.
    + exact IHl.
Qed.

Lemma wf_batch_Forall (s : list nat) (l : list batch) :
  fold_right (fun x acc => wf_batch s x /\ acc) True l -> Forall (wf_batch s) l.
Proof.
  induction l as [| x l IH]; cbn; intros H; constructor; tauto.
Qed.

Lemma transpose_transpose (r c : nat) (m : mat) :
  wf_mat r c m -> transpose r (transpose c m) = m.
Proof.
  intros [Hr Hc]. unfold transpose. subst r.
  transitivity (map (fun i => nth i m []) (seq 0 (length m)));
    [| apply map_nth_seq].
  apply map_ext_in. intros i Hi. apply in_seq in Hi.
  assert (Hrow : length (nth i m []) = c).
  { rewrite Forall_forall in Hc. apply Hc. apply nth_In. lia. }
  rewrite map_map.
  transitivity (map (fun j => nth j (nth i m []) 0) (seq 0 (length (nth i m []))));
    [| apply map_nth_seq].
  rewrite Hrow. apply map_ext_in. intros j Hj.
  apply (nth_map_in (fun row => nth j row 0) m i [] 0). lia.
Qed.

Lemma transpose_eye (n : nat) : transpose n (data (eye n)) = data (eye n).
Proof.
  unfold transpose, eye. cbn [data]. apply map_ext_in. intros j Hj.
  rewrite map_map. apply map_ext_in. intros i Hi.
  apply in_seq in Hi. apply in_seq in Hj.
  rewrite (nth_map_in _ _ _ 0%nat) by (rewrite length_seq; lia).
  rewrite seq_nth by lia. cbn. rewrite Nat.eqb_sym. reflexivity.
Qed.

Lemma dot_unit (row : vec) (s j : nat) :
  dot row (map (fun k => if (j =? k)%nat then 1 else 0) (seq s (length row)))
  = if ((s <=? j) && (j <? s + length row))%nat then nth (j - s) row 0 else 0.
Proof.
  revert s. induction row as [| x row IH]; intros s.
  - cbn. destruct (_ && _); [destruct (j - s)%nat |]; reflexivity.
  - cbn [length seq map map2 dot fold_right]. fold (dot row
      (map (fun k => if (j =? k)%nat then 1 else 0) (seq (S s) (length row)))).
    rewrite IH.
    destruct (Nat.eqb_spec j s) as [E | E].
    + subst j. rewrite Nat.leb_refl.
      replace (S s <=? s)%nat with false by (symmetry; apply Nat.leb_gt; lia).
      replace (s <? s + S (length row))%nat with true
        by (symmetry; apply Nat.ltb_lt; lia).
      rewrite Nat.sub_diag. cbn. lra.
    + destruct (Nat.leb_spec (S s) j) as [L | L].
      * replace (s <=? j)%nat with true by (symmetry; apply Nat.leb_le; lia).
        replace (j <? s + S (length row))%nat with (j <? S s + length row)%nat
          by (apply eq_true_iff_eq; rewrite !Nat.ltb_lt; lia).
        cbn [andb]. destruct (j <? S s + length row)%nat.
        -- replace (j - s)%nat with (S (j - S s)) by lia. cbn. lra.
        -- lra.
      * replace (s <=? j)%nat with false by (symmetry; apply Nat.leb_gt; lia).
        cbn. lra.
Qed.

Lemma matmul_eye (r n : nat) (a : mat) :
  wf_mat r n a -> matmul a n (data (eye n)) = a.
Proof.
  intros [Hr Hn]. unfold matmul. rewrite transpose_eye.
  transitivity (map (fun row : vec => row) a); [| apply map_id].
  apply map_ext_in. intros row Hrow.
  rewrite Forall_forall in Hn. specialize (Hn row Hrow).
  unfold eye. cbn [data]. rewrite map_map.
  transitivity (map (fun j => nth j row 0) (seq 0 (length row)));
    [| apply map_nth_seq].
  subst n. apply map_ext_in. intros j Hj. apply in_seq in Hj.
  rewrite dot_unit. cbn [Nat.leb andb].
  replace (j <? 0 + length row)%nat with true by (symmetry; apply Nat.ltb_lt; lia).
  rewrite Nat.sub_0_r. reflexivity.
Qed.

Lemma wf_transpose (r c : nat) (m : mat) :
  length m = r -> wf_mat c r (transpose c m).
Proof.
  intros Hr. unfold transpose. split.
  - rewrite length_map, length_seq. reflexivity.
  - apply Forall_forall. intros row Hrow. apply in_map_iff in Hrow.
    destruct Hrow as [j [<- _]]. rewrite length_map. exact Hr.
Qed.

Lemma filter_identity_matrix (f t : nat) (m : mat) :
  wf_mat f t m ->
  transpose f (matmul (transpose t m) f (data (eye f))) = m.
Proof.
  intros H. rewrite (matmul_eye t f).
  - apply transpose_transpose. exact H.
  - apply wf_transpose. apply H.
Qed.

Lemma filter_identity_batch (f t : nat) (b : batch) :
  forall lead, wf_batch (lead ++ [f; t]) b ->
  batch_map (fun m => transpose f (matmul (transpose t m) f (data (eye f)))) b = b.
Proof.
  induction b as [m | l IH] using batch_induction; intros lead H.
  - cbn [batch_map]. f_equal. apply filter_identity_matrix.
    cbn [wf_batch] in H.
    destruct lead as [| a [| a' [| a'' lead]]]; cbn in H; try contradiction.
    exact H.
  - cbn [batch_map]. f_equal.
    destruct lead as [| n lead].
    + cbn in H. contradiction.
    + assert (Hl : Forall (wf_batch (lead ++ [f; t])) l).
      { apply wf_batch_Forall. cbn [wf_batch app] in H.
        destruct (lead ++ [f; t]) as [| x [| y z]] eqn:E; try contradiction.
        apply H. }
      transitivity (map (fun x : batch => x) l); [| apply map_id].
      apply map_ext_in. intros x Hx.
      rewrite Forall_forall in IH, Hl. apply (IH x Hx lead). apply Hl, Hx.
Qed.

(** C7.  Applying the identity matrix of order [num_freqs] as filterbank to a
    magnitude spectrogram [(..., num_freqs, time)] returns the spectrogram
    itself, shape and entries. *)
Theorem apply_filterbank_identity (mag_specgrams : tensor batch)
    (lead : list nat) (num_freqs time : nat) :
  shape mag_specgrams = lead ++ [num_freqs; time] ->
  wf_batch (shape mag_specgrams) (data mag_specgrams) ->
  apply_filterbank mag_specgrams (eye num_freqs) = Ok mag_specgrams.
Proof.
  intros Hs Hwf. unfold apply_filterbank. rewrite Hs in *.
  rewrite rev_app_distr. cbn [rev app shape eye].
  rewrite Nat.eqb_refl. rewrite rev_involutive.
  rewrite (filter_identity_batch _ _ _ lead Hwf).
  destruct mag_specgrams as [s d]. cbn in *. subst s. reflexivity.
Qed.

Lemma apply_filterbank_identity_witness :
  apply_filterbank
    (mkTensor [1; 1; 2; 3]%nat (Batch [Batch [Matrix [[1; 2; 3]; [4; 5; 6]]]]))
    (eye 2)
  = Ok (mkTensor [1; 1; 2; 3]%nat (Batch [Batch [Matrix [[1; 2; 3]; [4; 5; 6]]]])).
Proof.
  apply (apply_filterbank_identity _ [1; 1]%nat 2 3).
  - reflexivity.
  - cbn. repeat split; repeat constructor.
Defined.

(** ** The mel scale is strictly increasing *)

Lemma exp_ge_1 (x : R) : 0 <= x -> 1 <= exp x.
Proof.
  intros [H | H].
  - left. rewrite <- exp_0. apply exp_increasing. exact H.
  - subst. rewrite exp_0. lra.
Qed.

Lemma hertz_to_mel_increasing (a b : R) (htk : bool) :
  0 <= a -> a < b -> _hertz_to_mel a htk < _hertz_to_mel b htk.
Proof.
  intros Ha Hab. destruct htk.
  - unfold _hertz_to_mel. assert (L := ln_10_pos).
    assert (H : ln (1 + a / 700) < ln (1 + b / 700)) by (apply ln_increasing; lra).
    assert (I : 0 < / ln 10) by (apply Rinv_0_lt_compat; exact L).
    unfold Rdiv at 1 3. nra.
  - assert (S := logstep_pos).
    assert (I : 0 < / (ln (64 / 10) / 27)) by (apply Rinv_0_lt_compat; exact S).
    destruct (Rlt_dec b 1000) as [Hb | Hb].
    + rewrite !hertz_to_mel_slaney_low by lra. lra.
    + destruct (Rlt_dec a 1000) as [Ha' | Ha'].
      * rewrite hertz_to_mel_slaney_low by lra.
        rewrite hertz_to_mel_slaney_high by lra.
        assert (N : 0 <= ln (b / 1000)) by (apply ln_nonneg; lra).
        unfold Rdiv at 3. nra.
      * rewrite !hertz_to_mel_slaney_high by lra.
        assert (H : ln (a / 1000) < ln (b / 1000)) by (apply ln_increasing; lra).
        unfold Rdiv at 2 5. nra.
Qed.

Lemma mel_to_hertz_increasing (a b : R) (htk : bool) :
  a < b -> _mel_to_hertz a htk < _mel_to_hertz b htk.
Proof.
  intros Hab. destruct htk.
  - unfold _mel_to_hertz, Rpower. assert (L := ln_10_pos).
    assert (H : exp (a / 2595 * ln 10) < exp (b / 2595 * ln 10))
      by (apply exp_increasing; nra).
    lra.
  - assert (S := logstep_pos).
    destruct (Rlt_dec b 15) as [Hb | Hb].
    + rewrite !mel_to_hertz_slaney_low by lra. lra.
    + destruct (Rlt_dec a 15) as [Ha | Ha].
      * rewrite mel_to_hertz_slaney_low by lra.
        rewrite mel_to_hertz_slaney_high by lra.
        assert (E : 1 <= exp (ln (64 / 10) / 27 * (b - 15)))
          by (apply exp_ge_1; nra).
        lra.
      * rewrite !mel_to_hertz_slaney_high by lra.
        assert (H : exp (ln (64 / 10) / 27 * (a - 15))
                    < exp (ln (64 / 10) / 27 * (b - 15)))
          by (apply exp_increasing; nra).
        lra.
Qed.

Lemma length_f_pts (num_mels : nat) (min_freq max_freq : R) (htk : bool) :
  length (f_pts num_mels min_freq max_freq htk) = (num_mels + 2)%nat.
Proof. unfold f_pts. rewrite length_map, length_linspace. reflexivity. Qed.

Lemma f_pts_increasing (num_mels : nat) (min_freq max_freq : R) (htk : bool)
    (i j : nat) :
  0 <= min_freq -> min_freq < max_freq ->
  (i < j)%nat -> (j < num_mels + 2)%nat ->
  nth i (f_pts num_mels min_freq max_freq htk) 0
  < nth j (f_pts num_mels min_freq max_freq htk) 0.
Proof.
  intros Hmin Hlt Hij Hj. unfold f_pts.
  rewrite !(nth_map_in (fun m => _mel_to_hertz m htk) _ _ 0)
    by (rewrite length_linspace; lia).
  apply mel_to_hertz_increasing. apply linspace_increasing; try lia.
  apply hertz_to_mel_increasing; assumption.
Qed.

(** ** The mel filterbank, entry by entry *)

Lemma length_drop_last {A : Type} (n : nat) (l : list A) :
  length (drop_last n l) = (length l - n)%nat.
Proof. unfold drop_last. rewrite length_firstn. lia. Qed.

Lemma nth_drop_last {A : Type} (n k : nat) (l : list A) (d : A) :
  (k < length l - n)%nat -> nth k (drop_last n l) d = nth k l d.
Proof.
  intros H. unfold drop_last. rewrite nth_firstn.
  replace (k <? length l - n)%nat with true by (symmetry; apply Nat.ltb_lt; lia).
  reflexivity.
Qed.

Lemma mel_filter_row (num_freqs num_mels : nat) (min_freq max_freq : R)
    (htk : bool) (i : nat) :
  (i < num_freqs)%nat ->
  nth i (data (create_mel_filter num_freqs num_mels min_freq max_freq htk)) []
  = map (fun j => triangle (f_pts num_mels min_freq max_freq htk) j
                           (nth i (stft_freqs num_freqs min_freq max_freq) 0))
        (seq 0 num_mels).
Proof.
  intros Hi. unfold create_mel_filter. cbn [data].
  fold (stft_freqs num_freqs min_freq max_freq).
  fold (f_pts num_mels min_freq max_freq htk).
  set (fp := f_pts num_mels min_freq max_freq htk).
  set (sfs := stft_freqs num_freqs min_freq max_freq).
  assert (Lfp : length fp = (num_mels + 2)%nat) by apply length_f_pts.
  assert (Lsf : length sfs = num_freqs) by apply length_linspace.
  set (fd := map2 Rminus (skipn 1 fp) (drop_last 1 fp)).
  assert (Lfd : length fd = (num_mels + 1)%nat).
  { unfold fd. rewrite length_map2, length_skipn, length_drop_last. lia. }
  rewrite !map_map. rewrite map2_map_same.
  rewrite (nth_map_in _ _ _ 0) by lia.
  set (sf := nth i sfs 0).
  apply (nth_ext _ _ 0 0).
  - rewrite !length_map2, !length_map, !length_drop_last, !length_skipn,
      !length_map, length_seq. lia.
  - intros j Hj.
    rewrite !length_map2, !length_map, !length_drop_last, !length_skipn,
      !length_map in Hj.
    assert (Hjm : (j < num_mels)%nat) by lia.
    rewrite (nth_map2 _ _ _ _ 0 0)
      by (rewrite !length_map2, ?length_map, ?length_drop_last, ?length_skipn,
            ?length_map; lia).
    rewrite (nth_map2 Rdiv _ _ _ 0 0)
      by (rewrite ?length_map, ?length_drop_last, ?length_skipn, ?length_map; lia).
    rewrite (nth_map2 Rdiv _ _ _ 0 0)
      by (rewrite ?length_map, ?length_drop_last, ?length_skipn, ?length_map; lia).
    rewrite (nth_map_in (fun s => -1 * s) _ _ 0)
      by (rewrite length_drop_last, length_map; lia).
    rewrite nth_drop_last by (rewrite length_map; lia).
    rewrite nth_drop_last by lia.
    rewrite !nth_skipn.
    rewrite !(nth_map_in (fun fp0 => fp0 - sf) _ _ 0) by lia.
    unfold fd.
    rewrite !(nth_map2 Rminus _ _ _ 0 0)
      by (rewrite ?length_skipn, ?length_drop_last; lia).
    rewrite !nth_skipn. rewrite !nth_drop_last by lia.
    rewrite (nth_map_in _ _ _ 0%nat) by (rewrite length_seq; lia).
    rewrite seq_nth by lia. unfold triangle.
    replace (1 + j)%nat with (j + 1)%nat by lia.
    replace (2 + j)%nat with (j + 2)%nat by lia.
    replace (1 + (j + 1))%nat with (j + 2)%nat by lia.
    cbn [Nat.add]. reflexivity.
Qed.

Lemma mel_filter_entry (num_freqs num_mels : nat) (min_freq max_freq : R)
    (htk : bool) (i j : nat) :
  (i < num_freqs)%nat -> (j < num_mels)%nat ->
  nth j (nth i (data (create_mel_filter num_freqs num_mels min_freq max_freq htk))
             []) 0
  = triangle (f_pts num_mels min_freq max_freq htk) j
             (nth i (stft_freqs num_freqs min_freq max_freq) 0).
Proof.
  intros Hi Hj. rewrite mel_filter_row by exact Hi.
  rewrite (nth_map_in _ _ _ 0%nat) by (rewrite length_seq; exact Hj).
  rewrite seq_nth by exact Hj. reflexivity.
Qed.

Lemma wf_mel_filter (num_freqs num_mels : nat) (min_freq max_freq : R) (htk : bool) :
  wf_mat num_freqs num_mels
         (data (create_mel_filter num_freqs num_mels min_freq max_freq htk)).
Proof.
  assert (L : length (data (create_mel_filter num_freqs num_mels min_freq
                                              max_freq htk)) = num_freqs).
  { unfold create_mel_filter. cbn [data].
    rewrite length_map2, !length_map, length_linspace. lia. }
  split; [exact L |].
  apply Forall_nth. intros i d Hi. rewrite L in Hi.
  rewrite (nth_indep _ d []) by lia.
  rewrite mel_filter_row by exact Hi.
  rewrite length_map, length_seq. reflexivity.
Qed.

Lemma div_le_bound (x d c : R) : 0 < d -> x <= c * d -> x / d <= c.
Proof.
  intros Hd H. apply Rmult_le_reg_r with d; [exact Hd |].
  unfold Rdiv. rewrite Rmult_assoc, Rinv_l by lra. lra.
Qed.

Section Triangle.
Variables lo ce hi sf : R.
Hypothesis lo_ce : lo < ce.
Hypothesis ce_hi : ce < hi.

Let down := (-1 * (lo - sf)) / (ce - lo).
Let up := (hi - sf) / (hi - ce).

Lemma ramps_bounds : 0 <= Rmax (Rmin down up) 0 <= 1.
Proof.
  split; [apply Rmax_r |].
  apply Rmax_lub; [| lra].
  destruct (Rle_dec sf ce) as [H | H].
  - apply Rle_trans with down; [apply Rmin_l |].
    unfold down. apply div_le_bound; lra.
  - apply Rle_trans with up; [apply Rmin_r |].
    unfold up. apply div_le_bound; lra.
Qed.

Lemma ramps_outside : sf <= lo \/ hi <= sf -> Rmax (Rmin down up) 0 = 0.
Proof.
  intros H. apply Rmax_right.
  destruct H as [H | H].
  - apply Rle_trans with down; [apply Rmin_l |].
    unfold down. apply div_le_bound; lra.
  - apply Rle_trans with up; [apply Rmin_r |].
    unfold up. apply div_le_bound; lra.
Qed.

Lemma ramps_center : sf = ce -> Rmax (Rmin down up) 0 = 1.
Proof.
  intros ->. unfold down, up.
  replace (-1 * (lo - ce) / (ce - lo)) with 1 by (field; lra).
  replace ((hi - ce) / (hi - ce)) with 1 by (field; lra).
  rewrite Rmin_left by lra. apply Rmax_left. lra.
Qed.
End Triangle.

Lemma triangle_bounds (num_mels : nat) (min_freq max_freq : R) (htk : bool)
    (j : nat) (sf : R) :
  0 <= min_freq -> min_freq < max_freq -> (j < num_mels)%nat ->
  0 <= triangle (f_pts num_mels min_freq max_freq htk) j sf <= 1.
Proof.
  intros Hmin Hlt Hj. unfold triangle.
  apply ramps_bounds; apply f_pts_increasing; assumption || lia.
Qed.

(** C9.  Under the filterbank preconditions every entry of the matrix
    returned by [create_mel_filter] lies in the closed interval [0, 1]. *)
Theorem mel_filter_unit_interval (num_freqs num_mels : nat)
    (min_freq max_freq : R) (htk : bool) :
  (2 <= num_freqs)%nat -> (1 <= num_mels)%nat ->
  0 <= min_freq -> min_freq < max_freq ->
  Forall (Forall (fun w => 0 <= w <= 1))
         (data (create_mel_filter num_freqs num_mels min_freq max_freq htk)).
Proof.
  intros Hnf Hnm Hmin Hlt.
  destruct (wf_mel_filter num_freqs num_mels min_freq max_freq htk) as [L _].
  apply Forall_nth. intros i d Hi. rewrite L in Hi.
  rewrite (nth_indep _ d []) by lia.
  rewrite mel_filter_row by exact Hi.
  apply Forall_forall. intros w Hw. apply in_map_iff in Hw.
  destruct Hw as [j [<- Hj]]. apply in_seq in Hj.
  apply triangle_bounds; assumption || lia.
Qed.

Lemma mel_filter_unit_interval_witness :
  Forall (Forall (fun w => 0 <= w <= 1))
         (data (create_mel_filter 3 2 0 8000 true)).
Proof. apply (mel_filter_unit_interval 3 2 0 8000 true); lia || lra. Defined.

(** C3, as stated, fails: with two frequency samples and one filter between
    0 and 600 Hz the only column is zero at both samples, so its maximum is
    0 and no entry is 1. *)
Lemma mel_filter_peak_counterexample :
  data (create_mel_filter 2 1 0 600 false) = [[0]; [0]].
Proof.
  assert (R0 := mel_filter_row 2 1 0 600 false 0).
  assert (R1 := mel_filter_row 2 1 0 600 false 1).
  destruct (wf_mel_filter 2 1 0 600 false) as [L _].
  destruct (data (create_mel_filter 2 1 0 600 false)) as [| r0 [| r1 [| r2 rest]]];
    try discriminate L.
  cbn [nth] in R0, R1. rewrite R0, R1 by lia. clear R0 R1 L.
  assert (F : f_pts 1 0 600 false = [0; 300; 600]).
  { unfold f_pts. rewrite !hertz_to_mel_slaney_low by lra.
    unfold linspace. cbn [Nat.add seq map Nat.sub INR].
    rewrite !mel_to_hertz_slaney_low by lra.
    repeat (f_equal; try lra). }
  assert (S : stft_freqs 2 0 600 = [0; 600]).
  { unfold stft_freqs, linspace. cbn [seq map Nat.sub INR].
    repeat (f_equal; try lra). }
  rewrite F, S. cbn [seq map]. unfold triangle. cbn [nth Nat.add].
  repeat f_equal.
  - replace (-1 * (0 - 0) / (300 - 0)) with 0 by lra.
    rewrite Rmin_left by lra. apply Rmax_left; lra.
  - replace ((600 - 600) / (600 - 300)) with 0 by lra.
    rewrite Rmin_right by lra. apply Rmax_left; lra.
Qed.

(** C3, amended.  Under the filterbank preconditions every entry of a column
    is between 0 and 1, is zero at every frequency sample at or outside the
    column's two adjacent boundary frequencies, and is exactly 1 at a
    frequency sample that equals the column's center frequency. *)
Theorem mel_filter_triangle (num_freqs num_mels : nat) (min_freq max_freq : R)
    (htk : bool) (i j : nat) :
  (2 <= num_freqs)%nat -> (1 <= num_mels)%nat ->
  0 <= min_freq -> min_freq < max_freq ->
  (i < num_freqs)%nat -> (j < num_mels)%nat ->
  let w := nth j (nth i (data (create_mel_filter num_freqs num_mels min_freq
                                                 max_freq htk)) []) 0 in
  let sf := nth i (stft_freqs num_freqs min_freq max_freq) 0 in
  let fp := f_pts num_mels min_freq max_freq htk in
  0 <= w <= 1 /\
  (sf <= nth j fp 0 \/ nth (j + 2) fp 0 <= sf -> w = 0) /\
  (sf = nth (j + 1) fp 0 -> w = 1).
Proof.
  intros Hnf Hnm Hmin Hlt Hi Hj w sf fp. subst w.
  rewrite mel_filter_entry by assumption. fold sf. fold fp.
  assert (H1 : nth j fp 0 < nth (j + 1) fp 0)
    by (apply f_pts_increasing; assumption || lia).
  assert (H2 : nth (j + 1) fp 0 < nth (j + 2) fp 0)
    by (apply f_pts_increasing; assumption || lia).
  split; [apply triangle_bounds; assumption |].
  unfold triangle. split.
  - apply ramps_outside; assumption.
  - apply ramps_center; assumption.
Qed.

Lemma mel_filter_triangle_witness :
  0 <= nth 0 (nth 1 (data (create_mel_filter 3 1 0 600 false)) []) 0 <= 1.
Proof.
  apply (mel_filter_triangle 3 1 0 600 false 1 0); lia || lra.
Defined.

(** ** The phase vocoder: synthetic time steps *)

Lemma arange_pos (stop : nat) (step : R) :
  0 < step ->
  arange stop step
  = Ok (map (fun k => INR k * step) (seq 0 (Z.to_nat (Zceil (INR stop / step))))).
Proof.
  intros H. unfold arange. destruct (Rlt_dec 0 step); [reflexivity | contradiction].
Qed.

(** The number of steps is the number of indices [k] with [k * step < stop]. *)
Lemma arange_count (stop : nat) (step : R) (k : nat) :
  0 < step ->
  (k < Z.to_nat (Zceil (INR stop / step)))%nat <-> INR k * step < INR stop.
Proof.
  intros Hs.
  set (x := INR stop / step).
  assert (Hx : x * step = INR stop) by (unfold x; field; lra).
  destruct (Zceil_bound x) as [B1 B2].
  rewrite INR_IZR_INZ.
  split; intros H.
  - assert (Hz : (Z.of_nat k < Zceil x)%Z) by lia.
    assert (Hz' : (Z.of_nat k <= Zceil x - 1)%Z) by lia.
    apply IZR_le in Hz'. rewrite minus_IZR in Hz'.
    rewrite <- Hx. apply Rmult_lt_compat_r; lra.
  - assert (Hk : IZR (Z.of_nat k) < x).
    { apply Rmult_lt_reg_r with step; [exact Hs | lra]. }
    assert (Hz : (Z.of_nat k < Zceil x)%Z) by (apply lt_IZR; lra).
    lia.
Qed.

Lemma arange_count_zero (step : R) :
  0 < step -> Z.to_nat (Zceil (INR 0 / step)) = 0%nat.
Proof.
  intros Hs. cbn [INR]. replace (0 / step) with (IZR 0) by (unfold Rdiv; ring).
  rewrite <- (Ropp_involutive (IZR 0)), <- opp_IZR. unfold Zceil.
  rewrite Ropp_involutive, ZfloorZ. reflexivity.
Qed.

Lemma arange_count_pos (stop : nat) (step : R) :
  0 < step -> (0 < stop)%nat -> (0 < Z.to_nat (Zceil (INR stop / step)))%nat.
Proof.
  intros Hs Hn. apply arange_count; [exact Hs |].
  cbn [INR]. rewrite Rmult_0_l. apply lt_0_INR. exact Hn.
Qed.

(** At unit rate there is one step per input frame. *)
Lemma arange_count_one (stop : nat) : Z.to_nat (Zceil (INR stop / 1)) = stop.
Proof.
  replace (INR stop / 1) with (INR stop) by field.
  rewrite INR_IZR_INZ. unfold Zceil. rewrite ZfloorNZ. lia.
Qed.

(** Every synthetic time step reads frames inside the zero-padded input. *)
Lemma time_step_floor (stop k : nat) (step : R) :
  0 < step -> INR k * step < INR stop ->
  long (INR k * step) = Zfloor (INR k * step) /\
  long (INR k * step + 1) = (Zfloor (INR k * step) + 1)%Z /\
  (0 <= Zfloor (INR k * step) < Z.of_nat stop)%Z.
Proof.
  intros Hs Hk.
  assert (H0 : 0 <= INR k * step).
  { apply Rmult_le_pos; [apply pos_INR | lra]. }
  unfold long.
  destruct (Rle_dec 0 (INR k * step)) as [_ | N]; [| contradiction].
  destruct (Rle_dec 0 (INR k * step + 1)) as [_ | N]; [| lra].
  split; [reflexivity |]. split.
  - change 1 with (IZR 1). apply Zfloor_addz.
  - destruct (Zfloor_bound (INR k * step)) as [F1 F2]. split.
    + apply Zfloor_lub. exact H0.
    + apply lt_IZR. rewrite <- INR_IZR_INZ. lra.
Qed.

(** ** The phase vocoder along one bin *)

Lemma bcast_map2_single {A B C : Type} (f : A -> B -> C) (l : list A) (y : B) :
  bcast_map2 f l [y] = map (fun a => f a y) l.
Proof. destruct l as [| a [| a' l]]; reflexivity. Qed.

Lemma bcast_map2_same_length {A B C : Type} (f : A -> B -> C)
    (l1 : list A) (l2 : list B) :
  length l1 = length l2 -> bcast_map2 f l1 l2 = map2 f l1 l2.
Proof.
  destruct l1 as [| a [| a' l1]], l2 as [| b [| b' l2]]; cbn;
    intros H; try discriminate H; reflexivity.
Qed.

Lemma length_cumsum_from (acc : R) (l : vec) :
  length (cumsum_from acc l) = length l.
Proof.
  revert acc. induction l as [| x l IH]; intros acc; cbn; [| rewrite IH];
    reflexivity.
Qed.

Lemma phase_vocoder_row_closed (time_steps : vec) (row : list complex) (p : R) :
  phase_vocoder_row time_steps row [p]
  = combine
      (bcast_map2 Rmult (map (row_mag row) time_steps)
                  (map cos (row_phase_acc row p time_steps)))
      (bcast_map2 Rmult (map (row_mag row) time_steps)
                  (map sin (row_phase_acc row p time_steps))).
Proof.
  unfold phase_vocoder_row. cbv zeta.
  rewrite !map_map, !map2_map_same, !bcast_map2_single, !map_map.
  reflexivity.
Qed.

Lemma length_row_phase_acc (time_steps : vec) (row : list complex) (p : R) :
  (length row = 0%nat <-> length time_steps = 0%nat) ->
  length (row_phase_acc row p time_steps) = length time_steps.
Proof.
  intros H. unfold row_phase_acc, cumsum.
  rewrite length_cumsum_from, length_app, length_map, length_firstn,
    length_drop_last, length_map.
  destruct row as [| z row]; cbn [length] in *.
  - destruct H as [H _]. rewrite H by reflexivity. reflexivity.
  - destruct (length time_steps) as [| n]; [destruct H as [_ H]; discriminate H;
      reflexivity |]. lia.
Qed.

Lemma length_phase_vocoder_row (time_steps : vec) (row : list complex) (p : R) :
  (length row = 0%nat <-> length time_steps = 0%nat) ->
  length (phase_vocoder_row time_steps row [p]) = length time_steps.
Proof.
  intros H. rewrite phase_vocoder_row_closed.
  rewrite !bcast_map2_same_length
    by (rewrite !length_map, length_row_phase_acc by exact H; reflexivity).
  rewrite length_combine, !length_map2, !length_map.
  rewrite length_row_phase_acc by exact H. lia.
Qed.

Lemma nth_phase_vocoder_row (time_steps : vec) (row : list complex) (p : R)
    (k : nat) :
  (length row = 0%nat <-> length time_steps = 0%nat) ->
  (k < length time_steps)%nat ->
  nth k (phase_vocoder_row time_steps row [p]) (0, 0)
  = (row_mag row (nth k time_steps 0)
       * cos (nth k (row_phase_acc row p time_steps) 0),
     row_mag row (nth k time_steps 0)
       * sin (nth k (row_phase_acc row p time_steps) 0)).
Proof.
  intros H Hk. rewrite phase_vocoder_row_closed.
  assert (L := length_row_phase_acc time_steps row p H).
  rewrite !bcast_map2_same_length by (rewrite !length_map, L; reflexivity).
  rewrite combine_nth by (rewrite !length_map2, !length_map; reflexivity).
  rewrite !(nth_map2 Rmult _ _ _ 0 0) by (rewrite length_map; lia).
  rewrite !(nth_map_in _ _ _ 0) by lia.
  reflexivity.
Qed.

(** ** Polar form *)

Lemma norm_nonneg (z : complex) : 0 <= norm z.
Proof. unfold norm. apply sqrt_pos. Qed.

Lemma norm_polar (m a : R) : 0 <= m -> norm (m * cos a, m * sin a) = m.
Proof.
  intros Hm. unfold norm. cbn [fst snd].
  replace (m * cos a * (m * cos a) + m * sin a * (m * sin a))
    with (m * m * (Rsqr (sin a) + Rsqr (cos a))) by (unfold Rsqr; ring).
  rewrite sin2_cos2, Rmult_1_r. apply sqrt_square. exact Hm.
Qed.

(** ** The phase vocoder on a whole spectrogram *)

Lemma length_time_steps (num_frames : nat) (rate : R) :
  length (time_steps num_frames rate) = new_frames num_frames rate.
Proof. unfold time_steps. rewrite length_map, length_seq. reflexivity. Qed.

Lemma nth_time_steps (num_frames : nat) (rate : R) (k : nat) :
  (k < new_frames num_frames rate)%nat ->
  nth k (time_steps num_frames rate) 0 = INR k * rate.
Proof.
  intros H. unfold time_steps.
  rewrite (nth_map_in _ _ _ 0%nat) by (rewrite length_seq; exact H).
  rewrite seq_nth by exact H. reflexivity.
Qed.

Lemma new_frames_zero_iff (num_frames : nat) (rate : R) :
  0 < rate -> (num_frames = 0%nat <-> new_frames num_frames rate = 0%nat).
Proof.
  intros Hr. unfold new_frames. split; intros H.
  - subst. apply arange_count_zero. exact Hr.
  - destruct num_frames as [| n]; [reflexivity |].
    assert (P := arange_count_pos (S n) rate Hr). lia.
Qed.

Lemma bcast_dim_refl (n : nat) : bcast_dim n n = Ok n.
Proof. unfold bcast_dim. rewrite Nat.eqb_refl. reflexivity. Qed.

Lemma bcast_dim_one (n : nat) : bcast_dim n 1 = Ok n.
Proof.
  unfold bcast_dim. destruct (n =? 1)%nat eqn:E; [reflexivity |].
  reflexivity.
Qed.

Section Vocoder.
Variables (spect : tensor spec5) (rate : R) (phi_advance : tensor mat).
Variables (B C F T : nat).
Hypothesis shape_spect : shape spect = [B; C; F; T; 2%nat].
Hypothesis wf_spect : wf_spec5 spect.
Hypothesis shape_phi : shape phi_advance = [F; 1%nat].
Hypothesis wf_phi : wf_mat F 1 (data phi_advance).
Hypothesis rate_pos : 0 < rate.

(** The spectrogram [phase_vocoder] returns under these conditions. *)
Let stretched : tensor spec5 :=
  mkTensor [B; C; F; new_frames T rate; 2%nat]
    (map (map (fun chan =>
                 bcast_map2 (phase_vocoder_row (time_steps T rate)) chan
                            (data phi_advance)))
         (data spect)).

Lemma phase_vocoder_ok : phase_vocoder spect rate phi_advance = Ok stretched.
Proof.
  unfold phase_vocoder. rewrite shape_spect, shape_phi.
  rewrite arange_pos by exact rate_pos. cbn [bind].
  rewrite bcast_dim_refl. cbn [bind].
  fold (new_frames T rate). fold (time_steps T rate).
  rewrite length_time_steps, bcast_dim_one. cbn [bind].
  rewrite Nat.eqb_refl. reflexivity.
Qed.

Lemma wf_spect_unfold :
  length (data spect) = B /\
  Forall (fun bt => length bt = C /\
    Forall (fun ch => length ch = F /\
      Forall (fun row => length row = T) ch) bt) (data spect).
Proof. unfold wf_spec5 in wf_spect. rewrite shape_spect in wf_spect. exact wf_spect. Qed.

Lemma wf_channel (b c : nat) :
  (b < B)%nat -> (c < C)%nat ->
  length (nth c (nth b (data spect) []) []) = F /\
  Forall (fun row => length row = T) (nth c (nth b (data spect) []) []).
Proof.
  intros Hb Hc. destruct wf_spect_unfold as [LB HB].
  rewrite Forall_forall in HB.
  destruct (HB (nth b (data spect) [])) as [LC HC]; [apply nth_In; lia |].
  rewrite Forall_forall in HC.
  apply (HC (nth c (nth b (data spect) []) [])). apply nth_In. lia.
Qed.

Lemma length_bin_row (b c f : nat) :
  (b < B)%nat -> (c < C)%nat -> (f < F)%nat -> length (bin_row spect b c f) = T.
Proof.
  intros Hb Hc Hf. destruct (wf_channel b c Hb Hc) as [LF HF].
  rewrite Forall_forall in HF. apply HF. unfold bin_row. apply nth_In. lia.
Qed.

Lemma phi_row (f : nat) :
  (f < F)%nat ->
  nth f (data phi_advance) [] = [nth 0 (nth f (data phi_advance) []) 0].
Proof.
  intros Hf. destruct wf_phi as [L H]. rewrite Forall_forall in H.
  assert (H1 : length (nth f (data phi_advance) []) = 1%nat)
    by (apply H, nth_In; lia).
  destruct (nth f (data phi_advance) []) as [| x [| y r]]; try discriminate H1.
  reflexivity.
Qed.

Lemma stretched_channel (b c : nat) :
  (b < B)%nat -> (c < C)%nat ->
  nth c (nth b (data stretched) []) []
  = map2 (phase_vocoder_row (time_steps T rate))
         (nth c (nth b (data spect) []) []) (data phi_advance).
Proof.
  intros Hb Hc. destruct wf_spect_unfold as [LB HB].
  rewrite Forall_forall in HB.
  destruct (HB (nth b (data spect) [])) as [LC _]; [apply nth_In; lia |].
  destruct (wf_channel b c Hb Hc) as [LF _]. destruct wf_phi as [LP _].
  unfold stretched. cbn [data].
  rewrite (nth_map_in _ _ _ []) by lia.
  rewrite (nth_map_in _ _ _ []) by lia.
  apply bcast_map2_same_length. lia.
Qed.

Lemma stretched_bin_row (b c f : nat) :
  (b < B)%nat -> (c < C)%nat -> (f < F)%nat ->
  bin_row stretched b c f
  = phase_vocoder_row (time_steps T rate) (bin_row spect b c f)
                      [nth 0 (nth f (data phi_advance) []) 0].
Proof.
  intros Hb Hc Hf. unfold bin_row. rewrite stretched_channel by assumption.
  destruct (wf_channel b c Hb Hc) as [LF _]. destruct wf_phi as [LP _].
  rewrite (nth_map2 _ _ _ _ [] []) by lia.
  rewrite <- phi_row by exact Hf. reflexivity.
Qed.

Lemma row_steps_agree (b c f : nat) :
  (b < B)%nat -> (c < C)%nat -> (f < F)%nat ->
  length (bin_row spect b c f) = 0%nat <-> length (time_steps T rate) = 0%nat.
Proof.
  intros Hb Hc Hf. rewrite length_bin_row by assumption.
  rewrite length_time_steps. apply new_frames_zero_iff. exact rate_pos.
Qed.

Lemma wf_stretched : wf_spec5 stretched.
Proof.
  unfold wf_spec5. cbn [shape stretched].
  destruct wf_spect_unfold as [LB HB]. split.
  - unfold stretched. cbn [data]. rewrite length_map. exact LB.
  - apply Forall_nth. intros b d Hb.
    assert (Hb' : (b < B)%nat)
      by (unfold stretched in Hb; cbn [data] in Hb; rewrite length_map in Hb; lia).
    rewrite (nth_indep _ d []) by exact Hb.
    rewrite Forall_forall in HB.
    destruct (HB (nth b (data spect) [])) as [LC _]; [apply nth_In; lia |].
    assert (LC' : length (nth b (data stretched) []) = C).
    { unfold stretched. cbn [data]. rewrite (nth_map_in _ _ _ []) by lia.
      rewrite length_map. exact LC. }
    split; [exact LC' |].
    apply Forall_nth. intros c d' Hc. rewrite LC' in Hc.
    rewrite (nth_indep _ d' []) by lia.
    destruct (wf_channel b c Hb' Hc) as [LF _]. destruct wf_phi as [LP _].
    assert (LF' : length (nth c (nth b (data stretched) []) []) = F).
    { rewrite stretched_channel by assumption. rewrite length_map2. lia. }
    split; [exact LF' |].
    apply Forall_nth. intros f d'' Hf. rewrite LF' in Hf.
    rewrite (nth_indep _ d'' []) by lia.
    fold (bin_row stretched b c f). rewrite stretched_bin_row by assumption.
    rewrite length_phase_vocoder_row by (apply row_steps_agree; assumption).
    apply length_time_steps.
Qed.

Lemma stretched_entry (b c f k : nat) :
  (b < B)%nat -> (c < C)%nat -> (f < F)%nat -> (k < new_frames T rate)%nat ->
  entry stretched b c f k
  = (row_mag (bin_row spect b c f) (INR k * rate)
       * cos (nth k (row_phase_acc (bin_row spect b c f)
                       (nth 0 (nth f (data phi_advance) []) 0)
                       (time_steps T rate)) 0),
     row_mag (bin_row spect b c f) (INR k * rate)
       * sin (nth k (row_phase_acc (bin_row spect b c f)
                       (nth 0 (nth f (data phi_advance) []) 0)
                       (time_steps T rate)) 0)).
Proof.
  intros Hb Hc Hf Hk. unfold entry. rewrite stretched_bin_row by assumption.
  rewrite nth_phase_vocoder_row
    by (try apply row_steps_agree; try rewrite length_time_steps; assumption).
  rewrite nth_time_steps by exact Hk. reflexivity.
Qed.

End Vocoder.

(** The interpolation weight is a fractional part. *)
Lemma alpha_range (t : R) : 0 <= t - IZR (Zfloor t) < 1.
Proof. destruct (Zfloor_bound t) as [H1 H2]. lra. Qed.

Lemma row_mag_nonneg (row : list (R * R)) (t : R) : 0 <= row_mag row t.
Proof.
  unfold row_mag. destruct (alpha_range t) as [A1 A2].
  assert (N0 := norm_nonneg (frame_0 row t)).
  assert (N1 := norm_nonneg (frame_1 row t)).
  nra.
Qed.

(** The two frames a time step reads, by position in the padded row. *)
Lemma frames_at_step (row : list (R * R)) (stop k : nat) (rate : R) :
  0 < rate -> INR k * rate < INR stop ->
  frame_0 row (INR k * rate)
  = nth (Z.to_nat (Zfloor (INR k * rate))) (row ++ [(0, 0); (0, 0)]) (0, 0) /\
  frame_1 row (INR k * rate)
  = nth (Z.to_nat (Zfloor (INR k * rate)) + 1) (row ++ [(0, 0); (0, 0)]) (0, 0).
Proof.
  intros Hr Hk.
  destruct (time_step_floor stop k rate Hr Hk) as [L0 [L1 [Z0 Z1]]].
  unfold frame_0, frame_1, getitem. rewrite L0, L1.
  replace (Zfloor (INR k * rate) <? 0)%Z with false
    by (symmetry; apply Z.ltb_ge; lia).
  replace (Zfloor (INR k * rate) + 1 <? 0)%Z with false
    by (symmetry; apply Z.ltb_ge; lia).
  split; [reflexivity |]. f_equal. lia.
Qed.

(** C10.  Every entry of the stretched spectrogram has, as the Euclidean norm
    of its (real, imaginary) pair, the interpolated magnitude
    [alpha * m1 + (1 - alpha) * m0] of the two input frames that bracket its
    time step; the norm is non-negative and the accumulated phase does not
    enter it. *)
Theorem phase_vocoder_magnitude (spect : tensor spec5) (rate : R)
    (phi_advance : tensor mat) (B C F T : nat) :
  shape spect = [B; C; F; T; 2%nat] -> wf_spec5 spect ->
  shape phi_advance = [F; 1%nat] -> wf_mat F 1 (data phi_advance) ->
  0 < rate ->
  exists out,
    phase_vocoder spect rate phi_advance = Ok out /\
    forall b c f k,
      (b < B)%nat -> (c < C)%nat -> (f < F)%nat -> (k < size out 3)%nat ->
      let t := INR k * rate in
      let alpha := t - IZR (Zfloor t) in
      let frames := bin_row spect b c f ++ [(0, 0); (0, 0)] in
      let m0 := norm (nth (Z.to_nat (Zfloor t)) frames (0, 0)) in
      let m1 := norm (nth (Z.to_nat (Zfloor t) + 1) frames (0, 0)) in
      0 <= alpha < 1 /\
      norm (entry out b c f k) = alpha * m1 + (1 - alpha) * m0 /\
      0 <= norm (entry out b c f k).
Proof.
  intros Hs Hwf Hp Hwp Hr. eexists. split.
  - apply (phase_vocoder_ok spect rate phi_advance B C F T); assumption.
  - intros b c f k Hb Hc Hf Hk. cbn [size shape nth] in Hk. cbv zeta.
    rewrite (stretched_entry spect rate phi_advance B C F T) by assumption.
    assert (Hlt : INR k * rate < INR T) by (apply arange_count; assumption).
    destruct (frames_at_step (bin_row spect b c f) T k rate Hr Hlt) as [E0 E1].
    rewrite <- E0, <- E1.
    assert (M := row_mag_nonneg (bin_row spect b c f) (INR k * rate)).
    rewrite norm_polar by exact M.
    split; [apply alpha_range |]. split; [reflexivity | exact M].
Qed.

Lemma phase_vocoder_magnitude_witness :
  exists out,
    phase_vocoder (mkTensor [1; 1; 1; 2; 2]%nat [[[[(3, 4); (0, 1)]]]]) (1 / 2)
                  (mkTensor [1; 1]%nat [[0]]) = Ok out /\
    forall b c f k,
      (b < 1)%nat -> (c < 1)%nat -> (f < 1)%nat -> (k < size out 3)%nat ->
      let t := INR k * (1 / 2) in
      let alpha := t - IZR (Zfloor t) in
      let frames :=
        bin_row (mkTensor [1; 1; 1; 2; 2]%nat [[[[(3, 4); (0, 1)]]]]) b c f
        ++ [(0, 0); (0, 0)] in
      let m0 := norm (nth (Z.to_nat (Zfloor t)) frames (0, 0)) in
      let m1 := norm (nth (Z.to_nat (Zfloor t) + 1) frames (0, 0)) in
      0 <= alpha < 1 /\
      norm (entry out b c f k) = alpha * m1 + (1 - alpha) * m0 /\
      0 <= norm (entry out b c f k).
Proof.
  apply (phase_vocoder_magnitude _ (1 / 2) _ 1 1 1 2).
  - reflexivity.
  - cbn. repeat split; repeat constructor.
  - reflexivity.
  - cbn. repeat split; repeat constructor.
  - lra.
Defined.

(** ** The number of output frames *)

Lemma nat_count_unique (n m : nat) (P : nat -> Prop) :
  (forall k, (k < n)%nat <-> P k) -> (forall k, (k < m)%nat <-> P k) -> n = m.
Proof.
  intros Hn Hm.
  destruct (Nat.lt_trichotomy n m) as [H | [H | H]]; [| exact H |].
  - exfalso. apply (Nat.lt_irrefl n). apply Hn. apply Hm. exact H.
  - exfalso. apply (Nat.lt_irrefl m). apply Hm. apply Hn. exact H.
Qed.

(** For a whole-number rate the count is [floor((T - 1) / rate) + 1]. *)
Lemma new_frames_integer_rate (T r : nat) :
  (1 <= T)%nat -> (1 <= r)%nat ->
  new_frames T (INR r) = ((T - 1) / r + 1)%nat.
Proof.
  intros HT Hr.
  assert (Hpos : 0 < INR r) by (apply lt_0_INR; lia).
  apply (nat_count_unique _ _ (fun k => INR k * INR r < INR T)).
  - intros k. apply arange_count. exact Hpos.
  - intros k. rewrite <- mult_INR.
    assert (D := Nat.div_mod (T - 1) r ltac:(lia)).
    assert (M := Nat.mod_upper_bound (T - 1) r ltac:(lia)).
    set (q := ((T - 1) / r)%nat) in *. set (m := ((T - 1) mod r)%nat) in *.
    split; intros H.
    + apply lt_INR. nia.
    + apply INR_lt in H. nia.
Qed.

(** C2, as stated, fails: one input frame stretched at [rate = 1/2] gives two
    output frames (the time steps 0 and 1/2), while
    [floor((1 - 1) / (1/2)) + 1] is 1. *)
Lemma phase_vocoder_frames_counterexample :
  exists out,
    phase_vocoder (mkTensor [1; 1; 1; 1; 2]%nat [[[[(1, 0)]]]]) (1 / 2)
                  (mkTensor [1; 1]%nat [[0]]) = Ok out /\
    size out 3 = 2%nat /\
    size out 3 <> (Z.to_nat (Zfloor ((INR 1 - 1) / (1 / 2))) + 1)%nat.
Proof.
  eexists. split.
  - apply (phase_vocoder_ok _ (1 / 2) _ 1 1 1 1); [reflexivity | reflexivity | lra].
  - cbn [size shape nth].
    assert (E : new_frames 1 (1 / 2) = 2%nat).
    { unfold new_frames. rewrite (Zceil_eq 2); [reflexivity |]. cbn [INR]. lra. }
    rewrite E. split; [reflexivity |].
    rewrite (Zfloor_eq 0); [cbn; lia |]. cbn [INR]. lra.
Qed.

(** C2, amended.  For [num_frames >= 1] input frames and [rate > 0] the
    output has exactly [ceil(num_frames / rate)] frames: as many as there are
    time steps [k * rate] below [num_frames]; for a whole-number rate this
    is [floor((num_frames - 1) / rate) + 1]. *)
Theorem phase_vocoder_frame_count (spect : tensor spec5) (rate : R)
    (phi_advance : tensor mat) (B C F T : nat) :
  shape spect = [B; C; F; T; 2%nat] -> wf_spec5 spect ->
  shape phi_advance = [F; 1%nat] -> wf_mat F 1 (data phi_advance) ->
  (1 <= T)%nat -> 0 < rate ->
  exists out,
    phase_vocoder spect rate phi_advance = Ok out /\
    wf_spec5 out /\
    shape out = [B; C; F; Z.to_nat (Zceil (INR T / rate)); 2%nat] /\
    (forall k, (k < size out 3)%nat <-> INR k * rate < INR T) /\
    (forall r : nat, rate = INR r -> size out 3 = ((T - 1) / r + 1)%nat).
Proof.
  intros Hs Hwf Hp Hwp HT Hr. eexists. split; [| split; [| split; [| split]]].
  - apply (phase_vocoder_ok spect rate phi_advance B C F T); assumption.
  - apply wf_stretched; assumption.
  - reflexivity.
  - intros k. cbn [size shape nth]. apply arange_count. exact Hr.
  - intros r ->. cbn [size shape nth]. apply new_frames_integer_rate; [exact HT |].
    destruct r as [| r]; [cbn in Hr; lra | lia].
Qed.

Lemma phase_vocoder_frame_count_witness :
  exists out,
    phase_vocoder (mkTensor [1; 1; 1; 3; 2]%nat [[[[(1, 0); (0, 1); (2, 2)]]]]) 2
                  (mkTensor [1; 1]%nat [[0]]) = Ok out /\
    wf_spec5 out /\
    shape out = [1; 1; 1; Z.to_nat (Zceil (INR 3 / 2)); 2]%nat /\
    (forall k, (k < size out 3)%nat <-> INR k * 2 < INR 3) /\
    (forall r : nat, 2 = INR r -> size out 3 = ((3 - 1) / r + 1)%nat).
Proof.
  apply (phase_vocoder_frame_count _ 2 _ 1 1 1 3).
  - reflexivity.
  - cbn. repeat split; repeat constructor.
  - reflexivity.
  - cbn. repeat split; repeat constructor.
  - lia.
  - lra.
Defined.

(** ** Polar form of a complex pair *)

Lemma norm_factor (x y : R) :
  x <> 0 -> sqrt (x * x + y * y) = Rabs x * sqrt (1 + Rsqr (y / x)).
Proof.
  intros Hx.
  replace (x * x + y * y) with (Rsqr x * (1 + Rsqr (y / x)))
    by (unfold Rsqr; field; exact Hx).
  rewrite sqrt_mult.
  - rewrite sqrt_Rsqr_abs. reflexivity.
  - apply Rle_0_sqr.
  - assert (H := Rle_0_sqr (y / x)). lra.
Qed.

Lemma sqrt_one_plus_sqr_pos (u : R) : 0 < sqrt (1 + Rsqr u).
Proof. apply sqrt_lt_R0. assert (H := Rle_0_sqr u). lra. Qed.

Lemma cos_shift_PI (a : R) : cos (a - PI) = - cos a.
Proof. rewrite cos_minus, cos_PI, sin_PI. ring. Qed.

Lemma sin_shift_PI (a : R) : sin (a - PI) = - sin a.
Proof. rewrite sin_minus, cos_PI, sin_PI. ring. Qed.

Lemma polar_form (z : R * R) :
  norm z * cos (angle z) = fst z /\ norm z * sin (angle z) = snd z.
Proof.
  destruct z as [x y]. unfold norm, angle, atan2. cbn [fst snd].
  destruct (Rlt_dec 0 x) as [Hpos | Hnpos].
  - rewrite norm_factor by lra. rewrite Rabs_right by lra.
    rewrite cos_atan, sin_atan.
    assert (S := sqrt_one_plus_sqr_pos (y / x)).
    split; field; lra.
  - destruct (Rlt_dec x 0) as [Hneg | Hnneg].
    + rewrite norm_factor by lra. rewrite Rabs_left by lra.
      assert (S := sqrt_one_plus_sqr_pos (y / x)).
      destruct (Rle_dec 0 y) as [Hy | Hy].
      * rewrite neg_cos, neg_sin, cos_atan, sin_atan. split; field; lra.
      * rewrite cos_shift_PI, sin_shift_PI, cos_atan, sin_atan.
        split; field; lra.
    + assert (Hx : x = 0) by lra. subst x.
      replace (0 * 0 + y * y) with (Rsqr y) by (unfold Rsqr; ring).
      rewrite sqrt_Rsqr_abs.
      destruct (Rlt_dec 0 y) as [Hy | Hy].
      * rewrite cos_PI2, sin_PI2, Rabs_right by lra. lra.
      * destruct (Rlt_dec y 0) as [Hy' | Hy'].
        -- rewrite cos_neg, sin_neg, cos_PI2, sin_PI2, Rabs_left by lra. lra.
        -- assert (E : y = 0) by lra. subst y. rewrite Rabs_R0. lra.
Qed.

Lemma cos_period_Z (x : R) (k : Z) : cos (x + 2 * PI * IZR k) = cos x.
Proof.
  destruct (Z_le_gt_dec 0 k) as [H | H].
  - rewrite <- (Z2Nat.id k) by exact H. rewrite <- INR_IZR_INZ.
    replace (x + 2 * PI * INR (Z.to_nat k)) with (x + 2 * INR (Z.to_nat k) * PI)
      by ring.
    apply cos_period.
  - rewrite <- (cos_period (x + 2 * PI * IZR k) (Z.to_nat (- k))).
    f_equal. rewrite INR_IZR_INZ, Z2Nat.id by lia. rewrite opp_IZR. ring.
Qed.

Lemma sin_period_Z (x : R) (k : Z) : sin (x + 2 * PI * IZR k) = sin x.
Proof.
  destruct (Z_le_gt_dec 0 k) as [H | H].
  - rewrite <- (Z2Nat.id k) by exact H. rewrite <- INR_IZR_INZ.
    replace (x + 2 * PI * INR (Z.to_nat k)) with (x + 2 * INR (Z.to_nat k) * PI)
      by ring.
    apply sin_period.
  - rewrite <- (sin_period (x + 2 * PI * IZR k) (Z.to_nat (- k))).
    f_equal. rewrite INR_IZR_INZ, Z2Nat.id by lia. rewrite opp_IZR. ring.
Qed.

(** ** The phase vocoder at unit rate *)

Lemma nth_cumsum_from_0 (acc : R) (l : vec) :
  (0 < length l)%nat -> nth 0 (cumsum_from acc l) 0 = acc + nth 0 l 0.
Proof. destruct l as [| x l]; cbn; intros H; [lia | reflexivity]. Qed.

Lemma nth_cumsum_from_S (l : vec) :
  forall (acc : R) (k : nat),
    (S k < length l)%nat ->
    nth (S k) (cumsum_from acc l) 0
    = nth k (cumsum_from acc l) 0 + nth (S k) l 0.
Proof.
  induction l as [| x l IH]; intros acc k H; cbn [length] in H; [lia |].
  cbn [cumsum_from nth]. destruct k as [| k].
  - rewrite nth_cumsum_from_0 by lia. reflexivity.
  - rewrite IH by lia. reflexivity.
Qed.

Lemma floor_unit_step (k : nat) : Zfloor (INR k * 1) = Z.of_nat k.
Proof. rewrite Rmult_1_r, INR_IZR_INZ. apply ZfloorZ. Qed.

Lemma unit_step_below (n k : nat) : (k < n)%nat -> INR k * 1 < INR n.
Proof. intros H. rewrite Rmult_1_r. apply lt_INR. exact H. Qed.

Lemma frames_unit_rate (row : list (R * R)) (k : nat) :
  (k < length row)%nat ->
  frame_0 row (INR k * 1) = nth k row (0, 0) /\
  frame_1 row (INR k * 1) = nth (k + 1) (row ++ [(0, 0); (0, 0)]) (0, 0).
Proof.
  intros Hk.
  destruct (frames_at_step row (length row) k 1 ltac:(lra)
              (unit_step_below _ _ Hk)) as [E0 E1].
  rewrite E0, E1, floor_unit_step, Nat2Z.id. split; [| reflexivity].
  apply app_nth1. exact Hk.
Qed.

Lemma row_mag_unit_rate (row : list (R * R)) (k : nat) :
  (k < length row)%nat -> row_mag row (INR k * 1) = norm (nth k row (0, 0)).
Proof.
  intros Hk. unfold row_mag.
  destruct (frames_unit_rate row k Hk) as [E0 _]. rewrite E0.
  rewrite floor_unit_step, <- INR_IZR_INZ. ring.
Qed.

(** A phase increment at unit rate is the difference of the two input phases
    up to a whole number of turns. *)
Lemma row_phase_unit_rate (row : list (R * R)) (p : R) (k : nat) :
  (S k < length row)%nat ->
  exists z : Z,
    row_phase row p (INR k * 1)
    = angle (nth (S k) row (0, 0)) - angle (nth k row (0, 0)) + 2 * PI * IZR z.
Proof.
  intros Hk. unfold row_phase.
  destruct (frames_unit_rate row k ltac:(lia)) as [E0 E1]. rewrite E0, E1.
  rewrite app_nth1 by lia. replace (k + 1)%nat with (S k) by lia.
  set (x := angle (nth (S k) row (0, 0)) - angle (nth k row (0, 0)) - p).
  exists (- round (x / (2 * PI)))%Z. rewrite opp_IZR. unfold x. ring.
Qed.

Lemma phase_acc_unit_rate (row : list (R * R)) (p : R) (k : nat) :
  (k < length row)%nat ->
  exists z : Z,
    nth k (row_phase_acc row p (time_steps (length row) 1)) 0
    = angle (nth k row (0, 0)) + 2 * PI * IZR z.
Proof.
  assert (Hn : new_frames (length row) 1 = length row) by apply arange_count_one.
  induction k as [| k IH]; intros Hk; unfold row_phase_acc, cumsum in *.
  - exists 0%Z. destruct row as [| z0 row]; [cbn in Hk; lia |].
    cbn [firstn map app cumsum_from nth]. ring.
  - destruct IH as [z Hz]; [lia |].
    destruct (row_phase_unit_rate row p k Hk) as [z' Hz'].
    exists (z + z')%Z.
    rewrite nth_cumsum_from_S.
    + rewrite Hz. destruct row as [| z0 row]; [cbn in Hk; lia |].
      cbn [firstn map app]. cbn [nth].
      rewrite nth_drop_last
        by (rewrite length_map, length_time_steps, Hn; cbn [length] in *; lia).
      rewrite (nth_map_in _ _ _ 0)
        by (rewrite length_time_steps, Hn; cbn [length] in *; lia).
      rewrite nth_time_steps by (rewrite Hn; cbn [length] in *; lia).
      rewrite Hz', plus_IZR. cbn [nth]. ring.
    + rewrite length_app, length_map, length_firstn, length_drop_last,
        length_map, length_time_steps, Hn. lia.
Qed.

Lemma phase_vocoder_row_unit_rate (row : list (R * R)) (p : R) :
  phase_vocoder_row (time_steps (length row) 1) row [p] = row.
Proof.
  assert (Hn : new_frames (length row) 1 = length row) by apply arange_count_one.
  assert (Ha : length row = 0%nat <-> length (time_steps (length row) 1) = 0%nat).
  { rewrite length_time_steps, Hn. tauto. }
  apply (nth_ext _ _ (0, 0) (0, 0)).
  - rewrite length_phase_vocoder_row by exact Ha.
    rewrite length_time_steps. exact Hn.
  - intros k Hk. rewrite length_phase_vocoder_row in Hk by exact Ha.
    rewrite length_time_steps, Hn in Hk.
    rewrite nth_phase_vocoder_row
      by (try exact Ha; rewrite length_time_steps, Hn; exact Hk).
    rewrite nth_time_steps by (rewrite Hn; exact Hk).
    rewrite row_mag_unit_rate by exact Hk.
    destruct (phase_acc_unit_rate row p k Hk) as [z Hz]. rewrite Hz.
    rewrite cos_period_Z, sin_period_Z.
    destruct (polar_form (nth k row (0, 0))) as [Pc Ps]. rewrite Pc, Ps.
    symmetry. apply surjective_pairing.
Qed.

(** Two well-formed spectrograms of one shape with the same rows are equal. *)
Lemma spec5_ext (t1 t2 : tensor spec5) (B C F T : nat) :
  shape t1 = [B; C; F; T; 2%nat] -> shape t2 = [B; C; F; T; 2%nat] ->
  wf_spec5 t1 -> wf_spec5 t2 ->
  (forall b c f, (b < B)%nat -> (c < C)%nat -> (f < F)%nat ->
                 bin_row t1 b c f = bin_row t2 b c f) ->
  t1 = t2.
Proof.
  intros S1 S2 W1 W2 Hrows.
  destruct (wf_spect_unfold t1 B C F T S1 W1) as [L1 A1].
  destruct (wf_spect_unfold t2 B C F T S2 W2) as [L2 A2].
  rewrite Forall_forall in A1, A2.
  destruct t1 as [s1 d1], t2 as [s2 d2]. cbn [shape data] in *.
  subst s1 s2. f_equal.
  apply (nth_ext _ _ [] []); [lia |]. intros b Hb. rewrite L1 in Hb.
  destruct (A1 (nth b d1 [])) as [LC1 _]; [apply nth_In; lia |].
  destruct (A2 (nth b d2 [])) as [LC2 _]; [apply nth_In; lia |].
  apply (nth_ext _ _ [] []); [lia |]. intros c Hc. rewrite LC1 in Hc.
  destruct (wf_channel (mkTensor [B; C; F; T; 2%nat] d1) B C F T eq_refl W1 b c Hb Hc)
    as [LF1 _].
  destruct (wf_channel (mkTensor [B; C; F; T; 2%nat] d2) B C F T eq_refl W2 b c Hb Hc)
    as [LF2 _].
  cbn [data] in LF1, LF2.
  apply (nth_ext _ _ [] []); [lia |]. intros f Hf. rewrite LF1 in Hf.
  apply (Hrows b c f Hb Hc Hf).
Qed.

(** C6.  At [rate = 1] the phase vocoder returns, over the reals, the
    spectrogram it was given: the frame count is that of the input and every
    entry keeps its magnitude and its phase, whatever the phase advance of
    the input, so in particular when it equals the phase-advance table. *)
Theorem phase_vocoder_unit_rate (spect : tensor spec5) (phi_advance : tensor mat)
    (B C F T : nat) :
  shape spect = [B; C; F; T; 2%nat] -> wf_spec5 spect ->
  shape phi_advance = [F; 1%nat] -> wf_mat F 1 (data phi_advance) ->
  exists out,
    phase_vocoder spect 1 phi_advance = Ok out /\
    size out 3 = size spect 3 /\
    out = spect /\
    forall b c f k,
      norm (entry out b c f k) = norm (entry spect b c f k) /\
      angle (entry out b c f k) = angle (entry spect b c f k).
Proof.
  intros Hs Hwf Hp Hwp.
  assert (Hr : 0 < 1) by lra.
  assert (E : mkTensor [B; C; F; new_frames T 1; 2%nat]
                (map (map (fun chan =>
                             bcast_map2 (phase_vocoder_row (time_steps T 1)) chan
                                        (data phi_advance)))
                     (data spect)) = spect).
  { assert (Hn : new_frames T 1 = T) by apply arange_count_one.
    apply (spec5_ext _ _ B C F T).
    - cbn [shape]. rewrite Hn. reflexivity.
    - exact Hs.
    - apply (wf_stretched spect 1 phi_advance B C F T); assumption.
    - exact Hwf.
    - intros b c f Hb Hc Hf.
      rewrite (stretched_bin_row spect 1 phi_advance B C F T) by assumption.
      rewrite <- (length_bin_row spect B C F T Hs Hwf b c f Hb Hc Hf) at 1.
      apply phase_vocoder_row_unit_rate. }
  exists spect. split; [| split; [reflexivity | split; [reflexivity |]]].
  - rewrite (phase_vocoder_ok spect 1 phi_advance B C F T) by assumption.
    f_equal. exact E.
  - intros b c f k. split; reflexivity.
Qed.

Lemma phase_vocoder_unit_rate_witness :
  exists out,
    phase_vocoder (mkTensor [1; 1; 2; 2; 2]%nat
                     [[[[(3, 4); (0, 1)]; [(1, 0); (-1, 0)]]]]) 1
                  (mkTensor [2; 1]%nat [[0]; [PI]]) = Ok out /\
    size out 3
    = size (mkTensor [1; 1; 2; 2; 2]%nat
              [[[[(3, 4); (0, 1)]; [(1, 0); (-1, 0)]]]]) 3 /\
    out = mkTensor [1; 1; 2; 2; 2]%nat [[[[(3, 4); (0, 1)]; [(1, 0); (-1, 0)]]]] /\
    forall b c f k,
      norm (entry out b c f k)
      = norm (entry (mkTensor [1; 1; 2; 2; 2]%nat
                       [[[[(3, 4); (0, 1)]; [(1, 0); (-1, 0)]]]]) b c f k) /\
      angle (entry out b c f k)
      = angle (entry (mkTensor [1; 1; 2; 2; 2]%nat
                        [[[[(3, 4); (0, 1)]; [(1, 0); (-1, 0)]]]]) b c f k).
Proof.
  apply (phase_vocoder_unit_rate _ _ 1 1 2 2).
  - reflexivity.
  - cbn. repeat split; repeat constructor.
  - reflexivity.
  - cbn. repeat split; repeat constructor.
Defined.

(* ================================================================== *)
(** * Part III.  Further properties of the code                        *)
(* ================================================================== *)

(** ** The mel scale, both ways *)

(** [_mel_to_hertz] after [_hertz_to_mel] on a non-negative frequency. *)
Lemma mel_to_hertz_of_hertz (hz : R) (htk : bool) :
  0 <= hz -> _mel_to_hertz (_hertz_to_mel hz htk) htk = hz.
Proof.
  intros Hhz. destruct htk.
  - unfold _mel_to_hertz, _hertz_to_mel, Rpower.
    assert (L := ln_10_pos).
    replace (2595 * (ln (1 + hz / 700) / ln 10) / 2595 * ln 10)
      with (ln (1 + hz / 700)) by (field; lra).
    rewrite exp_ln by lra. lra.
  - assert (S := logstep_pos).
    destruct (Rlt_dec hz 1000) as [Lo | Hi].
    + rewrite hertz_to_mel_slaney_low, mel_to_hertz_slaney_low by lra. lra.
    + assert (N : 0 <= ln (hz / 1000)) by (apply ln_nonneg; lra).
      assert (Q : 0 <= ln (hz / 1000) / (ln (64 / 10) / 27)).
      { apply Rmult_le_pos; [exact N | left; apply Rinv_0_lt_compat; exact S]. }
      rewrite hertz_to_mel_slaney_high, mel_to_hertz_slaney_high by lra.
      replace (ln (64 / 10) / 27 * (15 + ln (hz / 1000) / (ln (64 / 10) / 27) - 15))
        with (ln (hz / 1000)) by (field; lra).
      rewrite exp_ln by lra. lra.
Qed.

(** X1.  [_hertz_to_mel] undoes [_mel_to_hertz] on every mel value, for the
    HTK formula and for the piecewise one: the two conversions are inverse
    in this order too, without any condition on the mel value. *)
Theorem hertz_mel_roundtrip (mel : R) (htk : bool) :
  _hertz_to_mel (_mel_to_hertz mel htk) htk = mel.
Proof.
  destruct htk.
  - unfold _mel_to_hertz, _hertz_to_mel. assert (L := ln_10_pos).
    replace (1 + 700 * (Rpower 10 (mel / 2595) - 1) / 700)
      with (Rpower 10 (mel / 2595)) by field.
    rewrite ln_Rpower. field. lra.
  - assert (S := logstep_pos).
    destruct (Rlt_dec mel 15) as [Lo | Hi].
    + rewrite mel_to_hertz_slaney_low by exact Lo.
      rewrite hertz_to_mel_slaney_low by lra. field.
    + rewrite mel_to_hertz_slaney_high by lra.
      assert (E : 1 <= exp (ln (64 / 10) / 27 * (mel - 15)))
        by (apply exp_ge_1; nra).
      rewrite hertz_to_mel_slaney_high by lra.
      replace (1000 * exp (ln (64 / 10) / 27 * (mel - 15)) / 1000)
        with (exp (ln (64 / 10) / 27 * (mel - 15))) by field.
      rewrite ln_exp. field. lra.
Qed.

(** X2.  Both conversions keep the order strictly: [_hertz_to_mel] on the
    non-negative frequencies and [_mel_to_hertz] on all mel values, so two
    values compare the same way before and after conversion. *)
Theorem mel_scale_order (a b : R) (htk : bool) :
  (0 <= a -> 0 <= b ->
   (a < b <-> _hertz_to_mel a htk < _hertz_to_mel b htk)) /\
  (a < b <-> _mel_to_hertz a htk < _mel_to_hertz b htk).
Proof.
  split.
  - intros Ha Hb. split; [apply hertz_to_mel_increasing; exact Ha |].
    intros H. destruct (Rlt_dec a b) as [L | L]; [exact L | exfalso].
    destruct (Req_dec a b) as [E | E]; [subst; lra |].
    assert (H' := hertz_to_mel_increasing b a htk Hb ltac:(lra)). lra.
  - split; [apply mel_to_hertz_increasing |].
    intros H. destruct (Rlt_dec a b) as [L | L]; [exact L | exfalso].
    destruct (Req_dec a b) as [E | E]; [subst; lra |].
    assert (H' := mel_to_hertz_increasing b a htk ltac:(lra)). lra.
Qed.

Lemma mel_scale_order_witness :
  (100 < 4000 <-> _hertz_to_mel 100 false < _hertz_to_mel 4000 false).
Proof.
  destruct (mel_scale_order 100 4000 false) as [H _]. apply H; lra.
Defined.

(** ** The mel filterbank: shape, end rows, neighbouring filters *)

(** X3.  Whatever its arguments, [create_mel_filter] returns a matrix of
    shape [(num_freqs, num_mels)] whose entries fill that shape, also when
    [num_freqs] or [num_mels] is 0. *)
Theorem create_mel_filter_shape (num_freqs num_mels : nat) (min_freq max_freq : R)
    (htk : bool) :
  shape (create_mel_filter num_freqs num_mels min_freq max_freq htk)
  = [num_freqs; num_mels] /\
  wf_mat num_freqs num_mels
         (data (create_mel_filter num_freqs num_mels min_freq max_freq htk)).
Proof. split; [reflexivity | apply wf_mel_filter]. Qed.

Lemma f_pts_first (num_mels : nat) (min_freq max_freq : R) (htk : bool) :
  0 <= min_freq -> nth 0 (f_pts num_mels min_freq max_freq htk) 0 = min_freq.
Proof.
  intros H. unfold f_pts.
  rewrite (nth_map_in _ _ _ 0) by (rewrite length_linspace; lia).
  rewrite nth_linspace by lia. cbn [INR].
  rewrite Rmult_0_l, Rplus_0_r. apply mel_to_hertz_of_hertz. exact H.
Qed.

Lemma f_pts_last (num_mels : nat) (min_freq max_freq : R) (htk : bool) :
  0 <= max_freq ->
  nth (num_mels + 1) (f_pts num_mels min_freq max_freq htk) 0 = max_freq.
Proof.
  intros H. unfold f_pts.
  rewrite (nth_map_in _ _ _ 0) by (rewrite length_linspace; lia).
  rewrite nth_linspace by lia.
  replace (num_mels + 2 - 1)%nat with (num_mels + 1)%nat by lia.
  assert (P : 0 < INR (num_mels + 1)) by (apply lt_0_INR; lia).
  replace (_hertz_to_mel min_freq htk
           + INR (num_mels + 1)
             * ((_hertz_to_mel max_freq htk - _hertz_to_mel min_freq htk)
                / INR (num_mels + 1)))
    with (_hertz_to_mel max_freq htk) by (field; lra).
  apply mel_to_hertz_of_hertz. exact H.
Qed.

Lemma f_pts_monotone (num_mels : nat) (min_freq max_freq : R) (htk : bool)
    (i j : nat) :
  0 <= min_freq -> min_freq < max_freq ->
  (i <= j)%nat -> (j < num_mels + 2)%nat ->
  nth i (f_pts num_mels min_freq max_freq htk) 0
  <= nth j (f_pts num_mels min_freq max_freq htk) 0.
Proof.
  intros Hmin Hlt Hij Hj. destruct (Nat.eq_dec i j) as [-> | N]; [lra |].
  left. apply f_pts_increasing; assumption || lia.
Qed.

(** X4.  The first and the last frequency sample are [min_freq] and
    [max_freq], the outermost boundary frequencies, so the first and the last
    row of the filterbank are zero in every column. *)
Theorem mel_filter_end_rows_zero (num_freqs num_mels : nat)
    (min_freq max_freq : R) (htk : bool) (j : nat) :
  (2 <= num_freqs)%nat -> 0 <= min_freq -> min_freq < max_freq ->
  (j < num_mels)%nat ->
  nth j (nth 0 (data (create_mel_filter num_freqs num_mels min_freq max_freq htk))
             []) 0 = 0 /\
  nth j (nth (num_freqs - 1)
             (data (create_mel_filter num_freqs num_mels min_freq max_freq htk))
             []) 0 = 0.
Proof.
  intros Hnf Hmin Hlt Hj.
  assert (H1 : nth j (f_pts num_mels min_freq max_freq htk) 0
               < nth (j + 1) (f_pts num_mels min_freq max_freq htk) 0)
    by (apply f_pts_increasing; assumption || lia).
  assert (H2 : nth (j + 1) (f_pts num_mels min_freq max_freq htk) 0
               < nth (j + 2) (f_pts num_mels min_freq max_freq htk) 0)
    by (apply f_pts_increasing; assumption || lia).
  split; rewrite mel_filter_entry by lia; unfold triangle;
    apply ramps_outside; try assumption.
  - left. unfold stft_freqs. rewrite nth_linspace by lia. cbn [INR].
    rewrite Rmult_0_l, Rplus_0_r.
    rewrite <- (f_pts_first num_mels min_freq max_freq htk Hmin) at 1.
    apply f_pts_monotone; assumption || lia.
  - right. unfold stft_freqs. rewrite nth_linspace by lia.
    assert (P : 0 < INR (num_freqs - 1)) by (apply lt_0_INR; lia).
    replace (min_freq + INR (num_freqs - 1)
                        * ((max_freq - min_freq) / INR (num_freqs - 1)))
      with max_freq by (field; lra).
    rewrite <- (f_pts_last num_mels min_freq max_freq htk ltac:(lra)) at 2.
    apply f_pts_monotone; assumption || lia.
Qed.

Lemma mel_filter_end_rows_zero_witness :
  nth 0 (nth 0 (data (create_mel_filter 5 2 0 8000 true)) []) 0 = 0 /\
  nth 0 (nth (5 - 1) (data (create_mel_filter 5 2 0 8000 true)) []) 0 = 0.
Proof. apply (mel_filter_end_rows_zero 5 2 0 8000 true 0); lia || lra. Defined.

Lemma clamp_min_right (a b : R) : b <= a -> 0 <= b -> Rmax (Rmin a b) 0 = b.
Proof. intros H1 H2. rewrite Rmin_right by exact H1. apply Rmax_left. exact H2. Qed.

Lemma clamp_min_left (a b : R) : a <= b -> 0 <= a -> Rmax (Rmin a b) 0 = a.
Proof. intros H1 H2. rewrite Rmin_left by exact H1. apply Rmax_left. exact H2. Qed.

Lemma div_ge_bound (x d c : R) : 0 < d -> c * d <= x -> c <= x / d.
Proof.
  intros Hd H. apply Rmult_le_reg_r with d; [exact Hd |].
  unfold Rdiv. rewrite Rmult_assoc, Rinv_l by lra. lra.
Qed.

(** X5.  Between the centers of two neighbouring filters the falling ramp of
    the one and the rising ramp of the other add up to 1: at a frequency
    sample between [f_pts[j+1]] and [f_pts[j+2]] the entries of the columns
    [j] and [j+1] sum to exactly 1. *)
Theorem mel_filter_neighbours_sum (num_freqs num_mels : nat)
    (min_freq max_freq : R) (htk : bool) (i j : nat) :
  0 <= min_freq -> min_freq < max_freq ->
  (i < num_freqs)%nat -> (j + 1 < num_mels)%nat ->
  nth (j + 1) (f_pts num_mels min_freq max_freq htk) 0
  <= nth i (stft_freqs num_freqs min_freq max_freq) 0 ->
  nth i (stft_freqs num_freqs min_freq max_freq) 0
  <= nth (j + 2) (f_pts num_mels min_freq max_freq htk) 0 ->
  nth j (nth i (data (create_mel_filter num_freqs num_mels min_freq max_freq htk))
             []) 0
  + nth (j + 1)
        (nth i (data (create_mel_filter num_freqs num_mels min_freq max_freq htk))
             []) 0
  = 1.
Proof.
  intros Hmin Hlt Hi Hj Hlo Hhi.
  rewrite !mel_filter_entry by lia. unfold triangle.
  replace (j + 1 + 1)%nat with (j + 2)%nat by lia.
  replace (j + 1 + 2)%nat with (j + 3)%nat by lia.
  set (fp := f_pts num_mels min_freq max_freq htk) in *.
  set (sf := nth i (stft_freqs num_freqs min_freq max_freq) 0) in *.
  assert (H0 : nth j fp 0 < nth (j + 1) fp 0)
    by (apply f_pts_increasing; assumption || lia).
  assert (H1 : nth (j + 1) fp 0 < nth (j + 2) fp 0)
    by (apply f_pts_increasing; assumption || lia).
  assert (H2 : nth (j + 2) fp 0 < nth (j + 3) fp 0)
    by (apply f_pts_increasing; assumption || lia).
  rewrite clamp_min_right.
  - rewrite clamp_min_left.
    + field. lra.
    + apply Rle_trans with 1.
      * apply div_le_bound; lra.
      * apply div_ge_bound; lra.
    + apply div_ge_bound; lra.
  - apply Rle_trans with 1.
    + apply div_le_bound; lra.
    + apply div_ge_bound; lra.
  - apply div_ge_bound; lra.
Qed.

Lemma mel_filter_neighbours_sum_witness :
  nth 0 (nth 2 (data (create_mel_filter 5 3 0 800 false)) []) 0
  + nth (0 + 1) (nth 2 (data (create_mel_filter 5 3 0 800 false)) []) 0 = 1.
Proof.
  assert (F : forall k, (k < 5)%nat ->
                nth k (f_pts 3 0 800 false) 0 = INR k * 200).
  { intros k Hk. unfold f_pts.
    rewrite (nth_map_in _ _ _ 0) by (rewrite length_linspace; lia).
    rewrite nth_linspace by lia.
    rewrite !hertz_to_mel_slaney_low by lra.
    assert (B : INR k <= INR 4) by (apply le_INR; lia). cbn [INR] in B.
    assert (B0 := pos_INR k).
    cbn [Nat.add Nat.sub INR].
    rewrite mel_to_hertz_slaney_low by lra. lra. }
  assert (S : nth 2 (stft_freqs 5 0 800) 0 = 400).
  { unfold stft_freqs. rewrite nth_linspace by lia. cbn [Nat.sub INR]. lra. }
  apply (mel_filter_neighbours_sum 5 3 0 800 false 2 0); try lia; try lra.
  - rewrite S, F by lia. cbn [Nat.add INR]. lra.
  - rewrite S, F by lia. cbn [Nat.add INR]. lra.
Defined.

(** ** Magnitude and phase *)

Lemma atan2_range (y x : R) : - PI < atan2 y x <= PI.
Proof.
  assert (P := PI_RGT_0). unfold atan2.
  destruct (Rlt_dec 0 x) as [Hx | Hx].
  - destruct (atan_bound (y / x)). lra.
  - destruct (Rlt_dec x 0) as [Hn | Hn].
    + destruct (atan_bound (y / x)) as [B1 B2].
      destruct (Rle_dec 0 y) as [Hy | Hy].
      * assert (Q : y / x <= 0).
        { unfold Rdiv. assert (I : / x < 0) by (apply Rinv_lt_0_compat; lra).
          nra. }
        assert (A : atan (y / x) <= 0).
        { destruct Q as [Q | Q].
          - left. rewrite <- atan_0. apply atan_increasing. exact Q.
          - rewrite Q, atan_0. lra. }
        lra.
      * assert (Q : 0 < y / x).
        { apply Rmult_lt_reg_r with (- x); [lra |].
          unfold Rdiv. rewrite Rmult_0_l. 
          replace (y * / x * - x) with (- y) by (field; lra). lra. }
        assert (A : 0 < atan (y / x)).
        { rewrite <- atan_0. apply atan_increasing. exact Q. }
        lra.
    + destruct (Rlt_dec 0 y); [lra |]. destruct (Rlt_dec y 0); lra.
Qed.

(** X6.  With [power = 1], [magphase] splits a complex pair into a
    non-negative magnitude and a phase in (-PI, PI] from which the pair is
    recovered as [(mag * cos phase, mag * sin phase)]. *)
Theorem magphase_polar (z : R * R) :
  exists mag phase,
    magphase z 1 = Some (mag, phase) /\
    0 <= mag /\ - PI < phase <= PI /\
    (mag * cos phase, mag * sin phase) = z.
Proof.
  exists (norm z), (angle z). split; [| split; [| split]].
  - unfold magphase, complex_norm.
    destruct (Req_dec_T 1 1) as [_ | N]; [reflexivity | contradiction].
  - apply norm_nonneg.
  - apply atan2_range.
  - destruct (polar_form z) as [Pc Ps]. rewrite Pc, Ps.
    symmetry. apply surjective_pairing.
Qed.

Lemma Rpower_two (x : R) : 0 < x -> Rpower x 2 = x * x.
Proof.
  intros H. unfold Rpower. replace (2 * ln x) with (ln x + ln x) by ring.
  rewrite exp_plus, exp_ln by exact H. reflexivity.
Qed.

(** X7.  With [power = 2], [complex_norm] is the squared magnitude
    [re * re + im * im], the zero pair included; with any positive power
    the zero pair has norm 0, and with a negative power it has no finite
    norm. *)
Theorem complex_norm_power (z : R * R) (power : R) :
  complex_norm z 2 = Some (fst z * fst z + snd z * snd z) /\
  (0 < power -> complex_norm (0, 0) power = Some 0) /\
  (power < 0 -> complex_norm (0, 0) power = None).
Proof.
  assert (Z0 : norm (0, 0) = 0).
  { unfold norm. cbn [fst snd]. replace (0 * 0 + 0 * 0) with 0 by ring.
    apply sqrt_0. }
  split; [| split].
  - unfold complex_norm. destruct (Req_dec_T 2 1) as [E | _]; [lra |].
    unfold norm_pow, norm.
    set (s := fst z * fst z + snd z * snd z).
    assert (Hs : 0 <= s) by (unfold s; nra).
    destruct (Rlt_dec 0 (sqrt s)) as [P | P].
    + rewrite Rpower_two by exact P. rewrite sqrt_sqrt by exact Hs. reflexivity.
    + assert (E : sqrt s = 0) by (assert (Q := sqrt_pos s); lra).
      destruct (Req_dec_T (sqrt s) 0) as [_ | N]; [| contradiction].
      destruct (Rlt_dec 0 2) as [_ | N]; [| lra].
      f_equal. symmetry. apply sqrt_eq_0; assumption.
  - intros Hp. unfold complex_norm.
    destruct (Req_dec_T power 1) as [E | _]; [rewrite Z0; reflexivity |].
    unfold norm_pow. rewrite Z0.
    destruct (Rlt_dec 0 0) as [F | _]; [lra |].
    destruct (Req_dec_T 0 0) as [_ | N]; [| contradiction].
    destruct (Rlt_dec 0 power) as [_ | N]; [reflexivity | contradiction].
  - intros Hp. unfold complex_norm.
    destruct (Req_dec_T power 1) as [E | _]; [lra |].
    unfold norm_pow. rewrite Z0.
    destruct (Rlt_dec 0 0) as [F | _]; [lra |].
    destruct (Req_dec_T 0 0) as [_ | N]; [| contradiction].
    destruct (Rlt_dec 0 power) as [F | _]; [lra |].
    destruct (Req_dec_T power 0) as [F | _]; [lra | reflexivity].
Qed.

Lemma complex_norm_power_witness :
  complex_norm (0, 0) (1 / 2) = Some 0 /\ complex_norm (0, 0) (-1) = None.
Proof.
  destruct (complex_norm_power (0, 0) (1 / 2)) as [_ [H _]].
  destruct (complex_norm_power (0, 0) (-1)) as [_ [_ H']].
  split; [apply H; lra | apply H'; lra].
Defined.

(** ** Decibels *)

Lemma log10_pos (x : R) : 0 < x -> log10 x = Some (ln x / ln 10).
Proof. intros H. unfold log10. destruct (Rlt_dec 0 x); [reflexivity | contradiction]. Qed.

Lemma Rpower_10_log10 (x : R) : 0 < x -> Rpower 10 (ln x / ln 10) = x.
Proof.
  intros H. unfold Rpower. assert (L := ln_10_pos).
  replace (ln x / ln 10 * ln 10) with (ln x) by (field; lra).
  apply exp_ln. exact H.
Qed.

Lemma amplitude_to_db_value (x ref amin : R) :
  0 < amin -> 0 < ref ->
  amplitude_to_db x ref amin
  = Some (10 * (ln (Rmax x amin) / ln 10 - ln ref / ln 10)).
Proof.
  intros Ha Hr. unfold amplitude_to_db.
  assert (M : 0 < Rmax x amin).
  { apply Rlt_le_trans with amin; [exact Ha | apply Rmax_r]. }
  rewrite (log10_pos _ M), (log10_pos _ Hr). reflexivity.
Qed.

Lemma db_to_amplitude_value (x ref : R) :
  0 < ref -> db_to_amplitude x ref = Some (Rpower 10 (x / 10 + ln ref / ln 10)).
Proof. intros Hr. unfold db_to_amplitude. rewrite (log10_pos _ Hr). reflexivity. Qed.

(** X8.  For a positive floor [amin] and a positive reference [ref],
    converting an amplitude to decibels and back gives the amplitude
    clamped at the floor: [max(x, amin)]. *)
Theorem db_roundtrip (x ref amin : R) :
  0 < amin -> 0 < ref ->
  exists d,
    amplitude_to_db x ref amin = Some d /\
    db_to_amplitude d ref = Some (Rmax x amin).
Proof.
  intros Ha Hr. eexists. split; [apply amplitude_to_db_value; assumption |].
  rewrite db_to_amplitude_value by exact Hr. f_equal.
  assert (M : 0 < Rmax x amin).
  { apply Rlt_le_trans with amin; [exact Ha | apply Rmax_r]. }
  replace (10 * (ln (Rmax x amin) / ln 10 - ln ref / ln 10) / 10 + ln ref / ln 10)
    with (ln (Rmax x amin) / ln 10) by (assert (L := ln_10_pos); field; lra).
  apply Rpower_10_log10. exact M.
Qed.

Lemma db_roundtrip_witness :
  exists d,
    amplitude_to_db (1 / 2) 1 (1 / 10000000) = Some d /\
    db_to_amplitude d 1 = Some (Rmax (1 / 2) (1 / 10000000)).
Proof. apply (db_roundtrip (1 / 2) 1 (1 / 10000000)); lra. Defined.

Lemma ln_monotone (x y : R) : 0 < x -> x <= y -> ln x <= ln y.
Proof.
  intros Hx [H | H].
  - left. apply ln_increasing; assumption.
  - subst. lra.
Qed.

(** X9.  For a positive floor and reference, [amplitude_to_db] is
    non-decreasing in the amplitude, never goes below the decibel value of
    the floor, which every amplitude up to the floor takes, and is 0 at the
    reference when the reference is not below the floor. *)
Theorem amplitude_to_db_floor (x y ref amin : R) :
  0 < amin -> 0 < ref ->
  exists dx dy dmin,
    amplitude_to_db x ref amin = Some dx /\
    amplitude_to_db y ref amin = Some dy /\
    amplitude_to_db amin ref amin = Some dmin /\
    (x <= y -> dx <= dy) /\
    dmin <= dx /\
    (x <= amin -> dx = dmin) /\
    (amin <= ref -> amplitude_to_db ref ref amin = Some 0).
Proof.
  intros Ha Hr. assert (L := ln_10_pos).
  assert (I : 0 < / ln 10) by (apply Rinv_0_lt_compat; exact L).
  do 3 eexists.
  split; [apply amplitude_to_db_value; assumption |].
  split; [apply amplitude_to_db_value; assumption |].
  split; [apply amplitude_to_db_value; assumption |].
  assert (Mx : 0 < Rmax x amin)
    by (apply Rlt_le_trans with amin; [exact Ha | apply Rmax_r]).
  rewrite (Rmax_left amin amin) by lra.
  split; [| split; [| split]].
  - intros Hxy.
    assert (M : ln (Rmax x amin) <= ln (Rmax y amin)).
    { apply ln_monotone; [exact Mx |].
      apply Rmax_lub; [apply Rle_trans with y; [exact Hxy | apply Rmax_l]
                      | apply Rmax_r]. }
    unfold Rdiv. nra.
  - assert (M : ln amin <= ln (Rmax x amin))
      by (apply ln_monotone; [exact Ha | apply Rmax_r]).
    unfold Rdiv. nra.
  - intros Hx. rewrite (Rmax_right x amin) by exact Hx. reflexivity.
  - intros Hle. rewrite amplitude_to_db_value by assumption.
    rewrite (Rmax_left ref amin) by exact Hle. f_equal. lra.
Qed.

Lemma amplitude_to_db_floor_witness :
  exists dx dy dmin,
    amplitude_to_db 2 1 (1 / 10) = Some dx /\
    amplitude_to_db 3 1 (1 / 10) = Some dy /\
    amplitude_to_db (1 / 10) 1 (1 / 10) = Some dmin /\
    (2 <= 3 -> dx <= dy) /\
    dmin <= dx /\
    (2 <= 1 / 10 -> dx = dmin) /\
    (1 / 10 <= 1 -> amplitude_to_db 1 1 (1 / 10) = Some 0).
Proof. apply (amplitude_to_db_floor 2 3 1 (1 / 10)); lra. Defined.

(** X10.  For a positive floor and reference, converting a decibel value to
    an amplitude and back gives the value itself, unless it lies below the
    decibel value of the floor, which it is then raised to. *)
Theorem db_roundtrip_back (d ref amin : R) :
  0 < amin -> 0 < ref ->
  exists a dmin,
    db_to_amplitude d ref = Some a /\
    amplitude_to_db amin ref amin = Some dmin /\
    amplitude_to_db a ref amin = Some (Rmax d dmin).
Proof.
  intros Ha Hr. assert (L := ln_10_pos).
  assert (I : 0 < / ln 10) by (apply Rinv_0_lt_compat; exact L).
  do 2 eexists.
  split; [apply db_to_amplitude_value; exact Hr |].
  split; [apply amplitude_to_db_value; assumption |].
  rewrite amplitude_to_db_value by assumption. f_equal.
  rewrite (Rmax_left amin amin) by lra.
  set (a := Rpower 10 (d / 10 + ln ref / ln 10)).
  assert (Pa : 0 < a) by (unfold a, Rpower; apply exp_pos).
  assert (La : ln a = (d / 10 + ln ref / ln 10) * ln 10)
    by (unfold a; apply ln_Rpower).
  assert (Da : 10 * (ln a / ln 10 - ln ref / ln 10) = d)
    by (rewrite La; field; lra).
  destruct (Rle_dec amin a) as [H | H].
  - rewrite (Rmax_left a amin) by exact H. rewrite Da.
    symmetry. apply Rmax_left. rewrite <- Da.
    assert (M : ln amin <= ln a) by (apply ln_monotone; assumption).
    unfold Rdiv. nra.
  - rewrite (Rmax_right a amin) by lra.
    symmetry. apply Rmax_right. rewrite <- Da.
    assert (M : ln a <= ln amin) by (apply ln_monotone; lra).
    unfold Rdiv. nra.
Qed.

Lemma db_roundtrip_back_witness :
  exists a dmin,
    db_to_amplitude (-3) 1 = Some a /\
    amplitude_to_db (1 / 10) 1 (1 / 10) = Some dmin /\
    amplitude_to_db a 1 (1 / 10) = Some (Rmax (-3) dmin).
Proof. apply (db_roundtrip_back (-3) 1 (1 / 10)); lra. Defined.

(** ** Mu-law companding *)

Section MuLaw.
Variable n_quantize : Z.
Hypothesis levels : (2 <= n_quantize)%Z.

Let mu : R := IZR (n_quantize - 1).
Let L : R := ln (1 + mu).

Lemma mu_ge_1 : 1 <= mu.
Proof. unfold mu. apply (IZR_le 1). lia. Qed.

Lemma log1p_mu_pos : 0 < L.
Proof.
  unfold L. assert (M := mu_ge_1). rewrite <- ln_1. apply ln_increasing; lra.
Qed.

(** The compressed value [sign(x) * log1p(mu * |x|) / log1p(mu)]. *)
Let compress (x : R) : R := sign x * ln (1 + mu * Rabs x) / L.

Lemma mu_law_encoding_value (x : R) :
  mu_law_encoding x n_quantize
  = Some (long ((compress x + 1) / 2 * mu + 1 / 2)).
Proof.
  assert (M := mu_ge_1). assert (P := log1p_mu_pos). assert (A := Rabs_pos x).
  unfold mu_law_encoding, log1p, fdiv. fold mu.
  destruct (Rlt_dec (-1) (mu * Rabs x)) as [_ | N]; [| nra].
  destruct (Rlt_dec (-1) mu) as [_ | N]; [| lra].
  cbn [obind]. fold L.
  destruct (Req_dec_T L 0) as [E | _]; [lra |]. reflexivity.
Qed.

Lemma mu_law_decoding_value (x_mu : R) :
  mu_law_decoding x_mu n_quantize
  = Some (sign (x_mu / mu * 2 - 1)
          * (exp (Rabs (x_mu / mu * 2 - 1) * L) - 1) / mu).
Proof.
  assert (M := mu_ge_1).
  unfold mu_law_decoding, log1p, fdiv. fold mu.
  destruct (Req_dec_T mu 0) as [E | _]; [lra |]. cbn [obind].
  destruct (Rlt_dec (-1) mu) as [_ | N]; [| lra]. reflexivity.
Qed.

Lemma sign_cases (x : R) :
  (0 < x /\ sign x = 1 /\ Rabs x = x) \/
  (x = 0 /\ sign x = 0 /\ Rabs x = 0) \/
  (x < 0 /\ sign x = -1 /\ Rabs x = - x).
Proof.
  unfold sign. destruct (Rlt_dec 0 x) as [P | P].
  - left. rewrite Rabs_right by lra. auto.
  - destruct (Rlt_dec x 0) as [N | N].
    + right. right. rewrite Rabs_left by lra. auto.
    + right. left. assert (x = 0) by lra. subst. rewrite Rabs_R0. auto.
Qed.

Lemma log1p_scaled_bounds (a : R) :
  0 <= a -> a <= 1 -> 0 <= ln (1 + mu * a) / L <= 1.
Proof.
  intros H0 H1. assert (M := mu_ge_1). assert (P := log1p_mu_pos).
  assert (N : 0 <= ln (1 + mu * a)) by (apply ln_nonneg; nra).
  assert (U : ln (1 + mu * a) <= L) by (apply ln_monotone; nra).
  split.
  - apply div_ge_bound; lra.
  - apply div_le_bound; lra.
Qed.

Lemma compress_bounds (x : R) : -1 <= x <= 1 -> -1 <= compress x <= 1.
Proof.
  intros Hx. unfold compress.
  assert (A : 0 <= Rabs x <= 1).
  { split; [apply Rabs_pos | apply Rabs_le; lra]. }
  destruct (log1p_scaled_bounds (Rabs x)) as [B0 B1]; try apply A.
  unfold Rdiv in *. rewrite Rmult_assoc.
  destruct (sign_cases x) as [[_ [S _]] | [[_ [S _]] | [_ [S _]]]];
    rewrite S; lra.
Qed.

Lemma long_nonneg (v : R) : 0 <= v -> long v = Zfloor v.
Proof. intros H. unfold long. destruct (Rle_dec 0 v); [reflexivity | contradiction]. Qed.

Lemma long_monotone (a b : R) : a <= b -> (long a <= long b)%Z.
Proof.
  intros H. unfold long.
  destruct (Rle_dec 0 a) as [Ha | Ha], (Rle_dec 0 b) as [Hb | Hb].
  - apply Zfloor_le. exact H.
  - lra.
  - apply Z.le_trans with 0%Z.
    + assert (C : (Zceil a <= Zceil 0)%Z) by (apply Zceil_le; lra).
      replace (Zceil 0) with 0%Z in C; [exact C |].
      symmetry. apply Zceil_eq. lra.
    + apply Zfloor_lub. exact Hb.
  - apply Zceil_le. exact H.
Qed.

Lemma compress_monotone (x y : R) : x <= y -> compress x <= compress y.
Proof.
  intros H. unfold compress.
  assert (M := mu_ge_1). assert (P := log1p_mu_pos).
  assert (I : 0 < / L) by (apply Rinv_0_lt_compat; exact P).
  assert (Nx : 0 <= ln (1 + mu * Rabs x))
    by (apply ln_nonneg; assert (A := Rabs_pos x); nra).
  assert (Ny : 0 <= ln (1 + mu * Rabs y))
    by (apply ln_nonneg; assert (A := Rabs_pos y); nra).
  unfold Rdiv. apply Rmult_le_compat_r; [lra |].
  destruct (sign_cases x) as [[Px [Sx Ax]] | [[Px [Sx Ax]] | [Px [Sx Ax]]]];
    destruct (sign_cases y) as [[Py [Sy Ay]] | [[Py [Sy Ay]] | [Py [Sy Ay]]]];
    rewrite Sx, Sy; try lra.
  - rewrite Ax, Ay in *.
    assert (Q : ln (1 + mu * x) <= ln (1 + mu * y)) by (apply ln_monotone; nra).
    lra.
  - rewrite Ax, Ay in *.
    assert (Q : ln (1 + mu * - y) <= ln (1 + mu * - x)) by (apply ln_monotone; nra).
    lra.
Qed.

End MuLaw.

(** X11.  With at least two and at most [2 ^ 23] levels (the range in which
    [mu + 0.5] is still exact in single precision), [mu_law_encoding] maps
    every sample in [-1, 1] to a code between 0 and [n_quantize - 1]. *)
Theorem mu_law_encoding_range (x : R) (n_quantize : Z) :
  (2 <= n_quantize)%Z -> (n_quantize <= 8388608)%Z -> -1 <= x <= 1 ->
  exists code,
    mu_law_encoding x n_quantize = Some code /\
    (0 <= code <= n_quantize - 1)%Z.
Proof.
  intros Hn _ Hx. eexists. split; [apply mu_law_encoding_value; exact Hn |].
  assert (M := mu_ge_1 n_quantize Hn).
  destruct (compress_bounds n_quantize Hn x Hx) as [C0 C1].
  cbv zeta in C0, C1.
  set (c := sign x * ln (1 + IZR (n_quantize - 1) * Rabs x)
            / ln (1 + IZR (n_quantize - 1))) in *.
  set (mu := IZR (n_quantize - 1)) in *.
  assert (V0 : 0 <= (c + 1) / 2 * mu + 1 / 2) by nra.
  assert (V1 : (c + 1) / 2 * mu + 1 / 2 < IZR (n_quantize - 1) + 1)
    by (fold mu; nra).
  rewrite long_nonneg by exact V0.
  destruct (Zfloor_bound ((c + 1) / 2 * mu + 1 / 2)) as [F0 F1]. split.
  - apply Zfloor_lub. exact V0.
  - assert (Q : (Zfloor ((c + 1) / 2 * mu + 1 / 2) < n_quantize - 1 + 1)%Z).
    { apply lt_IZR. rewrite plus_IZR. lra. }
    lia.
Qed.

Lemma mu_law_encoding_range_witness :
  exists code,
    mu_law_encoding (1 / 2) 256 = Some code /\ (0 <= code <= 256 - 1)%Z.
Proof. apply (mu_law_encoding_range (1 / 2) 256); [lia | lia | lra]. Defined.

(** X12.  With at least two levels, [mu_law_decoding] maps every code value
    between 0 and [n_quantize - 1] to a sample in [-1, 1]. *)
Theorem mu_law_decoding_range (x_mu : R) (n_quantize : Z) :
  (2 <= n_quantize)%Z -> 0 <= x_mu <= IZR (n_quantize - 1) ->
  exists x, mu_law_decoding x_mu n_quantize = Some x /\ -1 <= x <= 1.
Proof.
  intros Hn Hq. eexists. split; [apply mu_law_decoding_value; exact Hn |].
  assert (M := mu_ge_1 n_quantize Hn). assert (P := log1p_mu_pos n_quantize Hn).
  cbv zeta in P.
  set (mu := IZR (n_quantize - 1)) in *.
  set (x := x_mu / mu * 2 - 1).
  assert (Hx : -1 <= x <= 1).
  { unfold x. assert (Q0 : 0 <= x_mu / mu) by (apply div_ge_bound; lra).
    assert (Q1 : x_mu / mu <= 1) by (apply div_le_bound; lra). lra. }
  assert (A : 0 <= Rabs x <= 1).
  { split; [apply Rabs_pos | apply Rabs_le; lra]. }
  assert (E0 : 1 <= exp (Rabs x * ln (1 + mu))) by (apply exp_ge_1; nra).
  assert (E1 : exp (Rabs x * ln (1 + mu)) <= 1 + mu).
  { rewrite <- (exp_ln (1 + mu)) at 2 by lra.
    destruct (Req_dec (Rabs x) 1) as [E | E].
    - rewrite E, Rmult_1_l. lra.
    - left. apply exp_increasing. nra. }
  assert (D0 : 0 <= (exp (Rabs x * ln (1 + mu)) - 1) / mu)
    by (apply div_ge_bound; lra).
  assert (D1 : (exp (Rabs x * ln (1 + mu)) - 1) / mu <= 1)
    by (apply div_le_bound; lra).
  unfold Rdiv in *. rewrite Rmult_assoc.
  destruct (sign_cases x) as [[_ [S _]] | [[_ [S _]] | [_ [S _]]]];
    rewrite S; lra.
Qed.

Lemma mu_law_decoding_range_witness :
  exists x, mu_law_decoding 200 256 = Some x /\ -1 <= x <= 1.
Proof.
  apply (mu_law_decoding_range 200 256); [lia |].
  split; [lra | apply (IZR_le 200 255); lia].
Defined.

Lemma exp_gt_1 (x : R) : 0 < x -> 1 < exp x.
Proof. intros H. rewrite <- exp_0 at 1. apply exp_increasing. exact H. Qed.

(** X13.  With at least two levels, encoding the decoded value of a code
    between 0 and [n_quantize - 1] gives that code back: decoding loses
    nothing that encoding needs. *)
Theorem mu_law_code_roundtrip (code n_quantize : Z) :
  (2 <= n_quantize)%Z -> (0 <= code <= n_quantize - 1)%Z ->
  exists x,
    mu_law_decoding (IZR code) n_quantize = Some x /\
    mu_law_encoding x n_quantize = Some code.
Proof.
  intros Hn Hc. eexists. split; [apply mu_law_decoding_value; exact Hn |].
  rewrite mu_law_encoding_value by exact Hn. f_equal.
  assert (M := mu_ge_1 n_quantize Hn). assert (P := log1p_mu_pos n_quantize Hn).
  cbv zeta in P.
  assert (C0 : 0 <= IZR code) by (apply (IZR_le 0); lia).
  assert (C1 : IZR code <= IZR (n_quantize - 1)) by (apply IZR_le; lia).
  set (mu := IZR (n_quantize - 1)) in *.
  set (x := IZR code / mu * 2 - 1).
  set (E := exp (Rabs x * ln (1 + mu))).
  assert (A := Rabs_pos x).
  assert (E1 : 1 <= E) by (unfold E; apply exp_ge_1; nra).
  set (m := (E - 1) / mu).
  assert (Hm : 0 <= m) by (unfold m; apply div_ge_bound; lra).
  assert (Hmu : mu * m = E - 1) by (unfold m; field; lra).
  (* the decoded value has the sign of [x] and the magnitude [m] *)
  assert (D : sign (sign x * (E - 1) / mu) = sign x /\
              Rabs (sign x * (E - 1) / mu) = m).
  { destruct (sign_cases x) as [[Px [Sx Ax]] | [[Px [Sx Ax]] | [Px [Sx Ax]]]];
      rewrite Sx.
    - assert (Em : 1 < E).
      { unfold E. apply exp_gt_1. rewrite Ax. nra. }
      assert (Pm : 0 < m).
      { unfold m. apply Rmult_lt_0_compat; [lra |].
        apply Rinv_0_lt_compat; lra. }
      replace (1 * (E - 1) / mu) with m by (unfold m; field; lra).
      split; [| apply Rabs_right; lra].
      unfold sign. destruct (Rlt_dec 0 m); [reflexivity | contradiction].
    - replace (0 * (E - 1) / mu) with 0 by (field; lra).
      assert (Em : E = 1) by (unfold E; rewrite Ax, Rmult_0_l; apply exp_0).
      replace m with 0 by (unfold m; rewrite Em; field; lra).
      split; [| apply Rabs_R0].
      unfold sign. destruct (Rlt_dec 0 0); [lra |]. reflexivity.
    - assert (Em : 1 < E).
      { unfold E. apply exp_gt_1. rewrite Ax. nra. }
      assert (Pm : 0 < m).
      { unfold m. apply Rmult_lt_0_compat; [lra |].
        apply Rinv_0_lt_compat; lra. }
      replace (-1 * (E - 1) / mu) with (- m) by (unfold m; field; lra).
      split; [| rewrite Rabs_left by lra; ring].
      unfold sign. destruct (Rlt_dec 0 (- m)); [lra |].
      destruct (Rlt_dec (- m) 0); [reflexivity | lra]. }
  destruct D as [Ds Da]. rewrite Ds, Da, Hmu.
  replace (1 + (E - 1)) with E by ring.
  unfold E at 1. rewrite ln_exp.
  replace (sign x * (Rabs x * ln (1 + mu)) / ln (1 + mu)) with (sign x * Rabs x)
    by (field; lra).
  assert (SA : sign x * Rabs x = x).
  { destruct (sign_cases x) as [[_ [Sx Ax]] | [[Px [Sx Ax]] | [_ [Sx Ax]]]];
      rewrite Sx, Ax; lra. }
  rewrite SA.
  replace ((x + 1) / 2 * mu + 1 / 2) with (IZR code + 1 / 2)
    by (unfold x; field; lra).
  rewrite long_nonneg by lra. apply Zfloor_eq. lra.
Qed.

Lemma mu_law_code_roundtrip_witness :
  exists x,
    mu_law_decoding (IZR 37) 256 = Some x /\ mu_law_encoding x 256 = Some 37%Z.
Proof. apply (mu_law_code_roundtrip 37 256); lia. Defined.

(** X14.  With at least two levels, [mu_law_encoding] keeps the order of
    samples: a larger sample never gets a smaller code. *)
Theorem mu_law_encoding_monotone (x y : R) (n_quantize : Z) :
  (2 <= n_quantize)%Z -> x <= y ->
  exists cx cy,
    mu_law_encoding x n_quantize = Some cx /\
    mu_law_encoding y n_quantize = Some cy /\
    (cx <= cy)%Z.
Proof.
  intros Hn Hxy. do 2 eexists.
  split; [apply mu_law_encoding_value; exact Hn |].
  split; [apply mu_law_encoding_value; exact Hn |].
  apply long_monotone.
  assert (M := mu_ge_1 n_quantize Hn).
  assert (C := compress_monotone n_quantize Hn x y Hxy). cbv zeta in C.
  nra.
Qed.

Lemma mu_law_encoding_monotone_witness :
  exists cx cy,
    mu_law_encoding (-1 / 4) 256 = Some cx /\
    mu_law_encoding (1 / 3) 256 = Some cy /\
    (cx <= cy)%Z.
Proof. apply (mu_law_encoding_monotone (-1 / 4) (1 / 3) 256); [lia | lra]. Defined.

(** ** The phase vocoder: frames read, first frame, frame count and rate *)



Lemma row_mag_at_zero (row : list (R * R)) :
  row_mag row 0 = norm (nth 0 row (0, 0)).
Proof.
  unfold row_mag, frame_0, frame_1, getitem, long.
  destruct (Rle_dec 0 0) as [_ | N]; [| lra].
  replace (Zfloor 0) with 0%Z by (symmetry; apply (ZfloorZ 0)).
  cbn [Z.ltb Z.compare Z.to_nat]. 
  replace (0 - 0) with 0 by ring. rewrite Rmult_0_l, Rplus_0_l, Rminus_0_r, Rmult_1_l.
  destruct row as [| z row]; reflexivity.
Qed.

(** X16.  For every positive rate, the first output frame of
    [phase_vocoder] is the first input frame, in every bin: its magnitude is
    not interpolated and its phase is the input phase. *)
Theorem phase_vocoder_first_frame (spect : tensor spec5) (rate : R)
    (phi_advance : tensor mat) (B C F T : nat) :
  shape spect = [B; C; F; T; 2%nat] -> wf_spec5 spect ->
  shape phi_advance = [F; 1%nat] -> wf_mat F 1 (data phi_advance) ->
  0 < rate -> (1 <= T)%nat ->
  exists out,
    phase_vocoder spect rate phi_advance = Ok out /\
    forall b c f, (b < B)%nat -> (c < C)%nat -> (f < F)%nat ->
                  entry out b c f 0 = entry spect b c f 0.
Proof.
  intros Hs Hwf Hp Hwp Hr HT. eexists. split.
  - apply (phase_vocoder_ok spect rate phi_advance B C F T); assumption.
  - intros b c f Hb Hc Hf.
    assert (Hk : (0 < new_frames T rate)%nat)
      by (apply arange_count_pos; [exact Hr | lia]).
    rewrite (stretched_entry spect rate phi_advance B C F T) by assumption.
    assert (Z : INR 0 * rate = 0) by (cbn [INR]; ring). rewrite Z.
    rewrite row_mag_at_zero.
    assert (LR := length_bin_row spect B C F T Hs Hwf b c f Hb Hc Hf).
    unfold entry.
    destruct (bin_row spect b c f) as [| z row] eqn:E; [cbn in LR; lia |].
    unfold row_phase_acc, cumsum. cbn [firstn map app cumsum_from nth].
    rewrite Rplus_0_l.
    destruct (polar_form z) as [Pc Ps]. rewrite Pc, Ps.
    symmetry. apply surjective_pairing.
Qed.

Lemma phase_vocoder_first_frame_witness :
  exists out,
    phase_vocoder (mkTensor [1; 1; 1; 2; 2]%nat [[[[(3, 4); (0, 1)]]]]) (3 / 2)
                  (mkTensor [1; 1]%nat [[PI]]) = Ok out /\
    forall b c f, (b < 1)%nat -> (c < 1)%nat -> (f < 1)%nat ->
      entry out b c f 0
      = entry (mkTensor [1; 1; 1; 2; 2]%nat [[[[(3, 4); (0, 1)]]]]) b c f 0.
Proof.
  apply (phase_vocoder_first_frame _ (3 / 2) _ 1 1 1 2).
  - reflexivity.
  - cbn. repeat split; repeat constructor.
  - reflexivity.
  - cbn. repeat split; repeat constructor.
  - lra.
  - lia.
Defined.

Lemma new_frames_antitone (T : nat) (r1 r2 : R) :
  0 < r1 -> r1 <= r2 -> (new_frames T r2 <= new_frames T r1)%nat.
Proof.
  intros H1 H12.
  destruct (Nat.le_gt_cases (new_frames T r2) (new_frames T r1)) as [L | G];
    [exact L | exfalso].
  assert (A : INR (new_frames T r1) * r2 < INR T)
    by (apply arange_count; [lra | exact G]).
  assert (K : INR (new_frames T r1) * r1 < INR T).
  { assert (P := pos_INR (new_frames T r1)). nra. }
  apply arange_count in K; [| exact H1]. unfold new_frames in K. lia.
Qed.

(** X17.  A faster rate never gives more output frames: the frame count of
    [phase_vocoder] is non-increasing in the rate, it is at most the input
    frame count for a rate of 1 or more and at least that for a rate of 1 or
    less. *)
Theorem phase_vocoder_frames_vs_rate (spect : tensor spec5) (r1 r2 : R)
    (phi_advance : tensor mat) (B C F T : nat) :
  shape spect = [B; C; F; T; 2%nat] -> shape phi_advance = [F; 1%nat] ->
  0 < r1 -> r1 <= r2 ->
  exists out1 out2,
    phase_vocoder spect r1 phi_advance = Ok out1 /\
    phase_vocoder spect r2 phi_advance = Ok out2 /\
    (size out2 3 <= size out1 3)%nat /\
    (1 <= r1 -> (size out1 3 <= T)%nat) /\
    (r2 <= 1 -> (T <= size out2 3)%nat).
Proof.
  intros Hs Hp H1 H12. do 2 eexists.
  split; [apply (phase_vocoder_ok spect r1 phi_advance B C F T);
          assumption || lra |].
  split; [apply (phase_vocoder_ok spect r2 phi_advance B C F T);
          assumption || lra |].
  cbn [size shape nth]. split; [apply new_frames_antitone; assumption |].
  split; intros H.
  - rewrite <- (arange_count_one T) at 2. apply (new_frames_antitone T 1 r1); lra.
  - rewrite <- (arange_count_one T) at 1. apply (new_frames_antitone T r2 1); lra.
Qed.

Lemma phase_vocoder_frames_vs_rate_witness :
  exists out1 out2,
    phase_vocoder (mkTensor [1; 1; 1; 2; 2]%nat [[[[(3, 4); (0, 1)]]]]) (1 / 2)
                  (mkTensor [1; 1]%nat [[0]]) = Ok out1 /\
    phase_vocoder (mkTensor [1; 1; 1; 2; 2]%nat [[[[(3, 4); (0, 1)]]]]) 1
                  (mkTensor [1; 1]%nat [[0]]) = Ok out2 /\
    (size out2 3 <= size out1 3)%nat /\
    (1 <= 1 / 2 -> (size out1 3 <= 2)%nat) /\
    (1 <= 1 -> (2 <= size out2 3)%nat).
Proof.
  apply (phase_vocoder_frames_vs_rate _ (1 / 2) 1 _ 1 1 1 2);
    reflexivity || lra.
Defined.

(** ** Applying a filterbank: shape and sign of the result *)

Lemma wf_filtered_matrix (f t n : nat) (fb m : list (list R)) :
  wf_mat f t m -> wf_mat n t (transpose n (matmul (transpose t m) n fb)).
Proof.
  intros _. apply wf_transpose. unfold matmul, transpose.
  rewrite !length_map, length_seq. reflexivity.
Qed.

Lemma wf_batch_fold (s : list nat) (l : list batch) :
  Forall (wf_batch s) l -> fold_right (fun x acc => wf_batch s x /\ acc) True l.
Proof. induction 1; cbn; auto. Qed.

Lemma wf_filtered_batch (f t n : nat) (fb : list (list R)) (b : batch) :
  forall lead, wf_batch (lead ++ [f; t]) b ->
  wf_batch (lead ++ [n; t])
           (batch_map (fun m => transpose n (matmul (transpose t m) n fb)) b).
Proof.
  induction b as [m | l IH] using batch_induction; intros lead H.
  - cbn [batch_map wf_batch] in *.
    destruct lead as [| a [| a' [| a'' lead]]]; cbn in H; try contradiction.
    cbn. apply (wf_filtered_matrix f t n fb m H).
  - cbn [batch_map].
    destruct lead as [| k lead]; [cbn in H; contradiction |].
    cbn [wf_batch app] in *.
    destruct (lead ++ [f; t]) as [| x [| y z]] eqn:E; try contradiction.
    destruct (lead ++ [n; t]) as [| x' [| y' z']] eqn:E'.
    + destruct lead; discriminate E'.
    + destruct lead as [| ? [| ? ?]]; discriminate E'.
    + destruct H as [Hlen Hall]. split; [rewrite length_map; exact Hlen |].
      apply wf_batch_fold. apply Forall_map.
      apply wf_batch_Forall in Hall.
      rewrite Forall_forall in IH, Hall. apply Forall_forall. intros b Hb.
      rewrite <- E'. apply (IH b Hb lead). rewrite E. apply Hall, Hb.
Qed.

(** X18.  On a well-formed spectrogram [(..., num_freqs, time)] and a
    filterbank [(num_freqs, num_bands)], [apply_filterbank] returns a
    well-formed spectrogram [(..., num_bands, time)]: only the frequency
    axis changes; with a filterbank whose first axis is not [num_freqs] it
    raises. *)
Theorem apply_filterbank_shape (mag_specgrams : tensor batch)
    (filterbank : tensor (list (list R))) (lead : list nat)
    (num_freqs time num_bands : nat) :
  shape mag_specgrams = lead ++ [num_freqs; time] ->
  wf_batch (shape mag_specgrams) (data mag_specgrams) ->
  shape filterbank = [num_freqs; num_bands] ->
  (exists out,
      apply_filterbank mag_specgrams filterbank = Ok out /\
      shape out = lead ++ [num_bands; time] /\
      wf_batch (shape out) (data out)) /\
  (forall other k,
      shape other = [k; num_bands] -> k <> num_freqs ->
      apply_filterbank mag_specgrams other = Raise RuntimeError).
Proof.
  intros Hs Hwf Hf. split.
  - unfold apply_filterbank. rewrite Hs, Hf in *.
    rewrite rev_app_distr. cbn [rev app]. rewrite Nat.eqb_refl.
    eexists. split; [reflexivity |]. cbn [shape data].
    rewrite rev_involutive. split; [reflexivity |].
    apply (wf_filtered_batch num_freqs). exact Hwf.
  - intros other k Ho Hk. unfold apply_filterbank. rewrite Hs, Ho.
    rewrite rev_app_distr. cbn [rev app].
    replace (num_freqs =? k)%nat with false
      by (symmetry; apply Nat.eqb_neq; auto).
    reflexivity.
Qed.

Lemma apply_filterbank_shape_witness :
  exists out,
    apply_filterbank
      (mkTensor [1; 2; 3]%nat (Batch [Matrix [[1; 2; 3]; [4; 5; 6]]]))
      (mkTensor [2; 1]%nat [[1]; [1]]) = Ok out /\
    shape out = [1]%nat ++ [1; 3]%nat /\
    wf_batch (shape out) (data out).
Proof.
  destruct (apply_filterbank_shape
              (mkTensor [1; 2; 3]%nat (Batch [Matrix [[1; 2; 3]; [4; 5; 6]]]))
              (mkTensor [2; 1]%nat [[1]; [1]]) [1%nat] 2 3 1) as [H _].
  - reflexivity.
  - cbn. repeat split; repeat constructor.
  - reflexivity.
  - exact H.
Defined.

Lemma nth_nonneg (l : list R) (k : nat) : Forall (Rle 0) l -> 0 <= nth k l 0.
Proof.
  intros H. destruct (Nat.lt_ge_cases k (length l)) as [L | G].
  - rewrite Forall_forall in H. apply H. apply nth_In. exact L.
  - rewrite nth_overflow by exact G. lra.
Qed.

Lemma dot_nonneg (u v : list R) :
  Forall (Rle 0) u -> Forall (Rle 0) v -> 0 <= dot u v.
Proof.
  intros Hu. revert v. induction Hu as [| x u Hx Hu IH]; intros v Hv.
  - cbn. lra.
  - destruct Hv as [| y v Hy Hv]; [cbn; lra |].
    unfold dot in *. cbn [map2 fold_right]. specialize (IH v Hv). nra.
Qed.

Lemma transpose_nonneg (c : nat) (m : list (list R)) :
  Forall (Forall (Rle 0)) m -> Forall (Forall (Rle 0)) (transpose c m).
Proof.
  intros H. unfold transpose. apply Forall_map. apply Forall_forall.
  intros j _. apply Forall_map. apply Forall_impl with (2 := H).
  intros row Hrow. apply nth_nonneg. exact Hrow.
Qed.

Lemma matmul_nonneg (a b : list (list R)) (bcols : nat) :
  Forall (Forall (Rle 0)) a -> Forall (Forall (Rle 0)) b ->
  Forall (Forall (Rle 0)) (matmul a bcols b).
Proof.
  intros Ha Hb. unfold matmul. apply Forall_map.
  apply Forall_impl with (2 := Ha). intros row Hrow.
  apply Forall_map. apply Forall_impl with (2 := transpose_nonneg bcols b Hb).
  intros col Hcol. apply dot_nonneg; assumption.
Qed.

Lemma batch_all_Forall (P : R -> Prop) (l : list batch) :
  fold_right (fun x acc => batch_all P x /\ acc) True l <-> Forall (batch_all P) l.
Proof.
  induction l as [| x l IH]; cbn; split; intros H.
  - constructor.
  - exact I.
  - constructor; tauto.
  - inversion H; subst. tauto.
Qed.

Lemma filtered_batch_nonneg (t n : nat) (fb : list (list R)) (b : batch) :
  Forall (Forall (Rle 0)) fb -> batch_all (Rle 0) b ->
  batch_all (Rle 0)
    (batch_map (fun m => transpose n (matmul (transpose t m) n fb)) b).
Proof.
  intros Hfb. induction b as [m | l IH] using batch_induction; intros H.
  - cbn [batch_map batch_all] in *.
    apply transpose_nonneg, matmul_nonneg; [apply transpose_nonneg; exact H |
                                            exact Hfb].
  - cbn [batch_map batch_all] in *. apply batch_all_Forall.
    apply batch_all_Forall in H. apply Forall_map.
    rewrite Forall_forall in IH, H. apply Forall_forall. intros x Hx.
    apply (IH x Hx). apply H, Hx.
Qed.

Lemma mel_filter_nonneg (num_freqs num_mels : nat) (min_freq max_freq : R)
    (htk : bool) :
  Forall (Forall (Rle 0))
         (data (create_mel_filter num_freqs num_mels min_freq max_freq htk)).
Proof.
  destruct (wf_mel_filter num_freqs num_mels min_freq max_freq htk) as [L _].
  apply Forall_nth. intros i d Hi. rewrite L in Hi.
  rewrite (nth_indep _ d []) by lia. rewrite mel_filter_row by exact Hi.
  apply Forall_map. apply Forall_forall. intros j _. unfold triangle.
  apply Rmax_r.
Qed.

(** X19.  A mel spectrogram is non-negative: for a frequency range
    [0 <= min_freq < max_freq], applying the matrix of [create_mel_filter]
    to a spectrogram without negative entries gives a spectrogram without
    negative entries. *)
Theorem mel_spectrogram_nonneg (mag_specgrams : tensor batch)
    (lead : list nat) (num_freqs time num_mels : nat) (min_freq max_freq : R)
    (htk : bool) :
  0 <= min_freq -> min_freq < max_freq ->
  shape mag_specgrams = lead ++ [num_freqs; time] ->
  batch_all (Rle 0) (data mag_specgrams) ->
  exists out,
    apply_filterbank mag_specgrams
      (create_mel_filter num_freqs num_mels min_freq max_freq htk) = Ok out /\
    shape out = lead ++ [num_mels; time] /\
    batch_all (Rle 0) (data out).
Proof.
  intros _ _ Hs Hpos. unfold apply_filterbank. rewrite Hs.
  rewrite rev_app_distr. cbn [rev app shape create_mel_filter].
  rewrite Nat.eqb_refl. eexists. split; [reflexivity |]. cbn [shape data].
  rewrite rev_involutive. split; [reflexivity |].
  apply filtered_batch_nonneg; [| exact Hpos].
  apply (mel_filter_nonneg num_freqs num_mels min_freq max_freq htk).
Qed.

Lemma mel_spectrogram_nonneg_witness :
  exists out,
    apply_filterbank
      (mkTensor [1; 3; 2]%nat (Batch [Matrix [[1; 2]; [0; 5]; [4; 0]]]))
      (create_mel_filter 3 2 0 8000 false) = Ok out /\
    shape out = [1]%nat ++ [2; 2]%nat /\
    batch_all (Rle 0) (data out).
Proof.
  apply (mel_spectrogram_nonneg _ [1%nat] 3 2 2 0 8000 false).
  - lra.
  - lra.
  - reflexivity.
  - cbn. repeat split; repeat constructor; lra.
Defined.

(** ** Downmixing *)

Lemma sum_bounds (lo hi : R) (l : list R) :
  Forall (fun x => lo <= x <= hi) l ->
  INR (length l) * lo <= fold_right Rplus 0 l <= INR (length l) * hi.
Proof.
  induction 1 as [| x l Hx Hl IH].
  - cbn. lra.
  - cbn [length fold_right]. rewrite S_INR. lra.
Qed.

Lemma fmean_bounds (lo hi : R) (l : list R) :
  l <> [] -> Forall (fun x => lo <= x <= hi) l ->
  exists m, fmean l = Some m /\ lo <= m <= hi.
Proof.
  intros Hne Hall. destruct l as [| x l]; [contradiction |].
  eexists. split; [reflexivity |].
  assert (P : 0 < INR (length (x :: l))) by (apply lt_0_INR; cbn; lia).
  destruct (sum_bounds lo hi (x :: l) Hall) as [S0 S1]. split.
  - apply div_ge_bound; lra.
  - apply div_le_bound; lra.
Qed.

Lemma seq_nonempty (n : nat) : (1 <= n)%nat -> seq 0 n <> [].
Proof. destruct n; [lia | discriminate]. Qed.

(** X20.  With the default channel axis and at least one channel,
    [downmix_waveform] turns [(B, C, T)] into [(B, 1, T)], and every sample
    of the result is a number within the bounds that hold for all samples of
    the input: downmixing never leaves the range of the channels. *)
Theorem downmix_waveform_range (B C T : nat) (waveforms : list (list (list R)))
    (lo hi : R) :
  (1 <= C)%nat ->
  (forall b c t, (b < B)%nat -> (c < C)%nat -> (t < T)%nat ->
                 lo <= nth t (nth c (nth b waveforms []) []) 0 <= hi) ->
  exists out,
    DownmixWaveform_forward B C T waveforms = Ok out /\
    shape out = [B; 1%nat; T] /\
    length (data out) = B /\
    forall b, (b < B)%nat ->
      exists row, nth b (data out) [] = [row] /\ length row = T /\
        forall t, (t < T)%nat ->
          exists m, nth t row None = Some m /\ lo <= m <= hi.
Proof.
  intros HC Hall. eexists. split; [reflexivity |]. cbn [shape data].
  split; [reflexivity |]. split; [rewrite length_map, length_seq; reflexivity |].
  intros b Hb. eexists. split.
  - rewrite (nth_map_in _ _ _ 0%nat) by (rewrite length_seq; exact Hb).
    rewrite seq_nth by exact Hb. reflexivity.
  - split; [rewrite length_map, length_seq; reflexivity |].
    intros t Ht.
    rewrite (nth_map_in _ _ _ 0%nat) by (rewrite length_seq; exact Ht).
    rewrite seq_nth by exact Ht. cbn [Nat.add].
    apply fmean_bounds.
    + intros E. apply map_eq_nil in E. exact (seq_nonempty C HC E).
    + apply Forall_map. apply Forall_forall. intros c Hc.
      apply in_seq in Hc. apply Hall; lia.
Qed.

Lemma downmix_waveform_range_witness :
  exists out,
    DownmixWaveform_forward 1 2 2 [[[1; -1]; [0; 1 / 2]]] = Ok out /\
    shape out = [1; 1; 2]%nat /\
    length (data out) = 1%nat /\
    forall b, (b < 1)%nat ->
      exists row, nth b (data out) [] = [row] /\ length row = 2%nat /\
        forall t, (t < 2)%nat ->
          exists m, nth t row None = Some m /\ -1 <= m <= 1.
Proof.
  apply (downmix_waveform_range 1 2 2 [[[1; -1]; [0; 1 / 2]]] (-1) 1); [lia |].
  intros [| b] [| [| c]] [| [| t]] Hb Hc Ht; try lia; cbn; lra.
Defined.

(** X21.  A mono waveform is its own downmix: for [C = 1] and entries that
    fill the shape [(B, 1, T)], [downmix_waveform] with the default axis
    returns the waveform itself; the axis [-2] is the same axis. *)
Theorem downmix_waveform_mono (B T : nat) (waveforms : list (list (list R))) :
  length waveforms = B ->
  Forall (fun bt => length bt = 1%nat /\ Forall (fun ch => length ch = T) bt)
         waveforms ->
  downmix_waveform B 1 T waveforms 1
  = Ok (mkTensor [B; 1%nat; T] (map (map (map Some)) waveforms)) /\
  downmix_waveform B 1 T waveforms (-2) = downmix_waveform B 1 T waveforms 1.
Proof.
  intros HB Hwf. split; [| reflexivity].
  unfold downmix_waveform.
  replace (wrap_dim 1 3) with (@Ok nat 1%nat) by reflexivity. cbn [bind].
  f_equal. f_equal. subst B.
  apply (nth_ext _ _ [] []).
  - rewrite !length_map, length_seq. reflexivity.
  - intros b Hb. rewrite length_map, length_seq in Hb.
    rewrite (nth_map_in _ _ _ 0%nat) by (rewrite length_seq; exact Hb).
    rewrite seq_nth by exact Hb. cbn [Nat.add].
    rewrite (nth_map_in _ _ _ []) by exact Hb.
    rewrite Forall_forall in Hwf.
    destruct (Hwf (nth b waveforms [])) as [L1 LT]; [apply nth_In; exact Hb |].
    destruct (nth b waveforms []) as [| ch [| ch' rest]]; try discriminate L1.
    cbn [map nth]. f_equal.
    inversion LT as [| ? ? Lch _]; subst.
    apply (nth_ext _ _ None None).
    + rewrite !length_map, length_seq. reflexivity.
    + intros t Ht. rewrite length_map, length_seq in Ht.
      rewrite (nth_map_in _ _ _ 0%nat) by (rewrite length_seq; exact Ht).
      rewrite seq_nth by exact Ht. cbn [Nat.add seq map fmean fold_right length INR].
      rewrite (nth_map_in _ _ _ 0) by exact Ht. f_equal. field.
Qed.

Lemma downmix_waveform_mono_witness :
  downmix_waveform 2 1 2 [[[1; 2]]; [[3; 4]]] 1
  = Ok (mkTensor [2; 1; 2]%nat (map (map (map Some)) [[[1; 2]]; [[3; 4]]])).
Proof.
  apply (downmix_waveform_mono 2 2 [[[1; 2]]; [[3; 4]]]).
  - reflexivity.
  - repeat constructor.
Defined.

(** X22.  With the default channel axis and at least one channel,
    [downmix_spectrum] turns [(B, C, F, T)] into [(B, 1, F, T)] and keeps
    magnitudes non-negative: every entry of the result is a number that is
    at least 0 when all entries of the input are. *)
Theorem downmix_spectrum_nonneg (B C F T : nat)
    (mag_specgrams : list (list (list (list R)))) :
  (1 <= C)%nat ->
  (forall b c f t, (b < B)%nat -> (c < C)%nat -> (f < F)%nat -> (t < T)%nat ->
                   0 <= nth t (nth f (nth c (nth b mag_specgrams []) []) []) 0) ->
  exists out,
    DownmixSpectrum_forward B C F T mag_specgrams = Ok out /\
    shape out = [B; 1%nat; F; T] /\
    forall b f t, (b < B)%nat -> (f < F)%nat -> (t < T)%nat ->
      exists m,
        nth t (nth f (nth 0 (nth b (data out) []) []) []) None = Some m /\
        0 <= m.
Proof.
  intros HC Hall. eexists. split; [reflexivity |]. cbn [shape data].
  split; [reflexivity |]. intros b f t Hb Hf Ht.
  rewrite (nth_map_in _ _ _ 0%nat) by (rewrite length_seq; exact Hb).
  rewrite seq_nth by exact Hb. cbn [nth Nat.add].
  rewrite (nth_map_in _ _ _ 0%nat) by (rewrite length_seq; exact Hf).
  rewrite seq_nth by exact Hf. cbn [Nat.add].
  rewrite (nth_map_in _ _ _ 0%nat) by (rewrite length_seq; exact Ht).
  rewrite seq_nth by exact Ht. cbn [Nat.add].
  set (l := map (fun c => nth t (nth f (nth c (nth b mag_specgrams []) []) []) 0)
                (seq 0 C)).
  assert (Hne : l <> []).
  { unfold l. intros E. apply map_eq_nil in E. exact (seq_nonempty C HC E). }
  assert (Hpos : Forall (Rle 0) l).
  { unfold l. apply Forall_map. apply Forall_forall. intros c Hc.
    apply in_seq in Hc. apply Hall; lia. }
  clearbody l. destruct l as [| x l']; [contradiction |].
  eexists. split; [reflexivity |].
  assert (P : 0 < INR (length (x :: l'))) by (apply lt_0_INR; cbn; lia).
  apply div_ge_bound; [exact P |]. rewrite Rmult_0_l.
  clear - Hpos. induction Hpos as [| y l0 Hy Hl IH]; cbn; lra.
Qed.

Lemma downmix_spectrum_nonneg_witness :
  exists out,
    DownmixSpectrum_forward 1 2 1 2 [[[[1; 0]]; [[3; 4]]]] = Ok out /\
    shape out = [1; 1; 1; 2]%nat /\
    forall b f t, (b < 1)%nat -> (f < 1)%nat -> (t < 2)%nat ->
      exists m,
        nth t (nth f (nth 0 (nth b (data out) []) []) []) None = Some m /\
        0 <= m.
Proof.
  apply (downmix_spectrum_nonneg 1 2 1 2 [[[[1; 0]]; [[3; 4]]]]); [lia |].
  intros [| b] [| [| c]] [| f] [| [| t]] Hb Hc Hf Ht; try lia; cbn; lra.
Defined.

(** ** The layers *)

Lemma phi_advance_contract (rate : R) (hop_len : Z) (num_bins : nat) :
  shape (sst_phi_advance (StretchSpecTime_init rate hop_len num_bins))
  = [num_bins; 1%nat] /\
  wf_mat num_bins 1
         (data (sst_phi_advance (StretchSpecTime_init rate hop_len num_bins))).
Proof.
  split; [reflexivity |]. cbn [StretchSpecTime_init sst_phi_advance data]. split.
  - rewrite length_map. apply length_linspace.
  - apply Forall_map. apply Forall_forall. intros x _. reflexivity.
Qed.

Lemma unit_rate_identity (spect : tensor spec5) (phi_advance : tensor mat)
    (B C F T : nat) :
  shape spect = [B; C; F; T; 2%nat] -> wf_spec5 spect ->
  shape phi_advance = [F; 1%nat] -> wf_mat F 1 (data phi_advance) ->
  phase_vocoder spect 1 phi_advance = Ok spect.
Proof.
  intros Hs Hwf Hp Hwp. assert (Hr : 0 < 1) by lra.
  rewrite (phase_vocoder_ok spect 1 phi_advance B C F T) by assumption.
  f_equal. assert (Hn : new_frames T 1 = T) by apply arange_count_one.
  apply (spec5_ext _ _ B C F T).
  - cbn [shape]. rewrite Hn. reflexivity.
  - exact Hs.
  - apply (wf_stretched spect 1 phi_advance B C F T); assumption.
  - exact Hwf.
  - intros b c f Hb Hc Hf.
    rewrite (stretched_bin_row spect 1 phi_advance B C F T) by assumption.
    rewrite <- (length_bin_row spect B C F T Hs Hwf b c f Hb Hc Hf) at 1.
    apply phase_vocoder_row_unit_rate.
Qed.

(** X23.  A [StretchSpecTime] layer built for [num_bins] bins stretches every
    well-formed spectrogram with that many bins, for any hop length: the rate
    given to the call, else the rate of the layer, decides; a positive rate
    gives a well-formed spectrogram of [ceil(T / rate)] frames, and the rate
    1 (the default of the layer) gives back the input. *)
Theorem StretchSpecTime_forward_ok (spect : tensor spec5) (layer_rate : R)
    (hop_len : Z) (call_rate : option R) (B C F T : nat) :
  shape spect = [B; C; F; T; 2%nat] -> wf_spec5 spect ->
  0 < match call_rate with Some r => r | None => layer_rate end ->
  exists out,
    StretchSpecTime_forward (StretchSpecTime_init layer_rate hop_len F) spect
                            call_rate = Ok out /\
    shape out
    = [B; C; F;
       new_frames T (match call_rate with Some r => r | None => layer_rate end);
       2%nat] /\
    wf_spec5 out /\
    (match call_rate with Some r => r | None => layer_rate end = 1 ->
     out = spect).
Proof.
  intros Hs Hwf Hr.
  destruct (phi_advance_contract layer_rate hop_len F) as [Hp Hwp].
  set (e := match call_rate with Some r => r | None => layer_rate end) in *.
  assert (Hf : StretchSpecTime_forward (StretchSpecTime_init layer_rate hop_len F)
                 spect call_rate
               = phase_vocoder spect e
                   (sst_phi_advance (StretchSpecTime_init layer_rate hop_len F))).
  { unfold StretchSpecTime_forward, e. destruct call_rate; reflexivity. }
  rewrite Hf. eexists. split; [| split; [| split]].
  - apply (phase_vocoder_ok spect e _ B C F T); assumption.
  - reflexivity.
  - apply (wf_stretched spect e _ B C F T); assumption.
  - intros E.
    assert (U := unit_rate_identity spect _ B C F T Hs Hwf Hp Hwp).
    rewrite <- E in U.
    rewrite (phase_vocoder_ok spect e _ B C F T Hs Hp Hr) in U.
    injection U as U. exact U.
Qed.

Lemma StretchSpecTime_forward_ok_witness :
  exists out,
    StretchSpecTime_forward (StretchSpecTime_init 1 512 1)
      (mkTensor [1; 1; 1; 2; 2]%nat [[[[(3, 4); (0, 1)]]]]) None = Ok out /\
    shape out = [1; 1; 1; new_frames 2 1; 2]%nat /\
    wf_spec5 out /\
    (1 = 1 -> out = mkTensor [1; 1; 1; 2; 2]%nat [[[[(3, 4); (0, 1)]]]]).
Proof.
  apply (StretchSpecTime_forward_ok _ 1 512 None 1 1 1 2).
  - reflexivity.
  - cbn. repeat split; repeat constructor.
  - lra.
Defined.

(** X24.  Whenever [_stft_defaults] returns, the window it returns is a
    tensor: the one supplied, or for [None] a Hann window of [frame_len],
    else [fft_len], samples; [fft_len] is passed through and [hop_len]
    defaults to [fft_len // 4].  It raises exactly for a window that is
    neither a tensor nor [None], and for [None] with a negative length. *)
Theorem stft_defaults_result (fft_len : Z) (hop_len frame_len : option Z)
    (window : pyobj) :
  let hop := match hop_len with None => (fft_len / 4)%Z | Some h => h end in
  let len := match frame_len with None => fft_len | Some l => l end in
  (forall r, _stft_defaults fft_len hop_len frame_len window = Ok r ->
             exists s, r = (fft_len, hop, PyTensor s) /\
                       (window = PyNone -> s = [Z.to_nat len] /\ (0 <= len)%Z) /\
                       (forall s', window = PyTensor s' -> s = s')) /\
  ((exists e, _stft_defaults fft_len hop_len frame_len window = Raise e) <->
   window = PyOther \/ (window = PyNone /\ (len < 0)%Z)).
Proof.
  intros hop len. unfold _stft_defaults, hann_window. fold hop. fold len.
  destruct window as [| s |].
  - destruct (Z.ltb_spec len 0) as [N | N]; cbn [bind].
    + split; [intros r H; discriminate H |].
      split; [intros _; right; split; [reflexivity | exact N] |].
      intros _. eexists. reflexivity.
    + split.
      * intros r H. injection H as <-. eexists. split; [reflexivity |].
        split; [intros _; split; [reflexivity | exact N] |].
        intros s' E. discriminate E.
      * split; [intros [e H]; discriminate H |].
        intros [E | [_ L]]; [discriminate E | lia].
  - cbn [bind]. split.
    + intros r H. injection H as <-. exists s. split; [reflexivity |].
      split; [intros E; discriminate E |].
      intros s' E. injection E as ->. reflexivity.
    + split; [intros [e H]; discriminate H |].
      intros [E | [E _]]; discriminate E.
  - cbn [bind]. split; [intros r H; discriminate H |].
    split; [intros _; left; reflexivity |]. intros _. eexists. reflexivity.
Qed.

Lemma stft_defaults_result_witness :
  exists s, (2048%Z, 512%Z, PyTensor [1024%nat]) = (2048%Z, 512%Z, PyTensor s) /\
            (PyNone = PyNone -> s = [Z.to_nat 1024] /\ (0 <= 1024)%Z) /\
            (forall s', PyNone = PyTensor s' -> s = s').
Proof.
  destruct (stft_defaults_result 2048 None (Some 1024%Z) PyNone) as [H _].
  apply (H (2048%Z, 512%Z, PyTensor [1024%nat])). reflexivity.
Defined.

(** X25.  [MelFilterbank] tests [max_freq] for truth, not for [None]: a
    [max_freq] of [0.0] counts as absent.  Without a sample rate the
    constructor raises, [ValueError] when [max_freq] is [None] and
    [TypeError] when it is [0.0]; a non-zero [max_freq] is kept whatever the
    sample rate; otherwise [max_freq] becomes [sample_rate // 2]. *)
Theorem MelFilterbank_init_max_freq (num_freqs num_mels : nat) (min_freq : R)
    (htk : bool) :
  MelFilterbank_init num_freqs num_mels min_freq None None htk
  = Throw ValueError /\
  MelFilterbank_init num_freqs num_mels min_freq (Some 0) None htk
  = Throw (Builtin TypeError) /\
  (forall m sample_rate, m <> 0 ->
     MelFilterbank_init num_freqs num_mels min_freq (Some m) sample_rate htk
     = Return (mkMelFilterbank num_freqs num_mels min_freq m htk)) /\
  (forall sr,
     MelFilterbank_init num_freqs num_mels min_freq None (Some sr) htk
     = Return (mkMelFilterbank num_freqs num_mels min_freq (IZR (sr / 2)) htk) /\
     MelFilterbank_init num_freqs num_mels min_freq (Some 0) (Some sr) htk
     = Return (mkMelFilterbank num_freqs num_mels min_freq (IZR (sr / 2)) htk)).
Proof.
  split; [reflexivity |]. split; [| split].
  - unfold MelFilterbank_init.
    destruct (Req_dec_T 0 0) as [_ | N]; [reflexivity | contradiction].
  - intros m sample_rate Hm. unfold MelFilterbank_init.
    destruct sample_rate; destruct (Req_dec_T m 0); try contradiction;
      reflexivity.
  - intros sr. split; [reflexivity |]. unfold MelFilterbank_init.
    destruct (Req_dec_T 0 0) as [_ | N]; [reflexivity | contradiction].
Qed.

Lemma MelFilterbank_init_max_freq_witness :
  MelFilterbank_init 1025 128 0 (Some 8000) None false
  = Return (mkMelFilterbank 1025 128 0 8000 false).
Proof.
  destruct (MelFilterbank_init_max_freq 1025 128 0 false) as [_ [_ [H _]]].
  apply H. lra.
Defined.

Lemma mel_filter_entries_bounded (num_freqs num_mels : nat)
    (min_freq max_freq : R) (htk : bool) :
  0 <= min_freq -> min_freq < max_freq ->
  Forall (Forall (fun w => 0 <= w <= 1))
         (data (create_mel_filter num_freqs num_mels min_freq max_freq htk)).
Proof.
  intros Hmin Hlt.
  destruct (wf_mel_filter num_freqs num_mels min_freq max_freq htk) as [L _].
  apply Forall_nth. intros i d Hi. rewrite L in Hi.
  rewrite (nth_indep _ d []) by lia. rewrite mel_filter_row by exact Hi.
  apply Forall_map. apply Forall_forall. intros j Hj. apply in_seq in Hj.
  apply triangle_bounds; assumption || lia.
Qed.

(** X26.  A [MelFilterbank] built from a sample rate alone reaches up to the
    Nyquist frequency [sample_rate // 2]; when that lies above [min_freq >= 0]
    its [get_filterbank] is a [(num_freqs, num_mels)] matrix whose entries
    fill the shape and lie between 0 and 1. *)
Theorem MelFilterbank_from_sample_rate (num_freqs num_mels : nat)
    (min_freq : R) (sample_rate : Z) (htk : bool) :
  0 <= min_freq -> min_freq < IZR (sample_rate / 2) ->
  exists self,
    MelFilterbank_init num_freqs num_mels min_freq None (Some sample_rate) htk
    = Return self /\
    mf_max_freq self = IZR (sample_rate / 2) /\
    shape (MelFilterbank_get_filterbank self) = [num_freqs; num_mels] /\
    wf_mat num_freqs num_mels (data (MelFilterbank_get_filterbank self)) /\
    Forall (Forall (fun w => 0 <= w <= 1))
           (data (MelFilterbank_get_filterbank self)).
Proof.
  intros Hmin Hlt. eexists. split; [reflexivity |]. cbn [mf_max_freq].
  split; [reflexivity |]. split; [reflexivity |].
  unfold MelFilterbank_get_filterbank.
  cbn [mf_num_freqs mf_num_mels mf_min_freq mf_max_freq mf_htk].
  split; [apply wf_mel_filter | apply mel_filter_entries_bounded; assumption].
Qed.

Lemma MelFilterbank_from_sample_rate_witness :
  exists self,
    MelFilterbank_init 5 2 0 None (Some 22050%Z) false = Return self /\
    mf_max_freq self = IZR (22050 / 2) /\
    shape (MelFilterbank_get_filterbank self) = [5; 2]%nat /\
    wf_mat 5 2 (data (MelFilterbank_get_filterbank self)) /\
    Forall (Forall (fun w => 0 <= w <= 1))
           (data (MelFilterbank_get_filterbank self)).
Proof.
  apply (MelFilterbank_from_sample_rate 5 2 0 22050 false); [lra |].
  replace (22050 / 2)%Z with 11025%Z by reflexivity. lra.
Defined.

Lemma Spectrogram_returns_none (fft_len : Z) (hop_len frame_len : option Z)
    (window : pyobj) (pad : Z) (mode : pad_mode) (power : R) (mono : bool)
    (r : pyobj) :
  Spectrogram fft_len hop_len frame_len window pad mode power mono = Return r ->
  r = PyNone /\ mono = false.
Proof.
  unfold Spectrogram, STFT_init.
  destruct (_stft_defaults fft_len hop_len frame_len window)
    as [[[f h] w] | e]; cbn; [| discriminate].
  destruct mono; [discriminate |]. intros H. injection H as <-. auto.
Qed.

(** X27.  [Spectrogram] never returns a module: with [mono] true, its
    default, every call raises, the name [SpectralDownmix] being bound
    nowhere if the [STFT] layer could be built at all; with [mono] false a
    call that raises nothing returns [None]. *)
Theorem Spectrogram_never_builds (fft_len : Z) (hop_len frame_len : option Z)
    (window : pyobj) (pad : Z) (mode : pad_mode) (power : R) (mono : bool) :
  (forall r, Spectrogram fft_len hop_len frame_len window pad mode power mono
             = Return r -> r = PyNone /\ mono = false) /\
  (exists e, Spectrogram fft_len hop_len frame_len window pad mode power true
             = Throw e) /\
  (forall s, Spectrogram fft_len hop_len frame_len (PyTensor s) pad mode power
                         true = Throw NameError).
Proof.
  unfold Spectrogram, STFT_init. split; [| split].
  - intros r. fold (STFT_init fft_len hop_len frame_len window pad mode).
    fold (Spectrogram fft_len hop_len frame_len window pad mode power mono).
    apply Spectrogram_returns_none.
  - destruct (_stft_defaults fft_len hop_len frame_len window)
      as [[[f h] w] | e]; cbn; eexists; reflexivity.
  - intros s. reflexivity.
Qed.

(** X28.  [Melspectrogram] raises on every call, whatever its arguments,
    keyword arguments and filterbank class: when the filterbank could be
    built, [Spectrogram] raises or returns [None], and [None] cannot be
    unpacked into the arguments of [nn.Sequential]. *)
Theorem Melspectrogram_always_raises (num_mels : nat) (sample_rate : option Z)
    (min_freq : R) (max_freq : option R) (num_freqs : option Z) (htk : bool)
    (mel_filterbank :
       option (nat -> option Z -> R -> option R -> Z -> bool
               -> outcome (tensor mat)))
    (kwargs : spectrogram_kwargs) :
  exists e,
    Melspectrogram num_mels sample_rate min_freq max_freq num_freqs htk
                   mel_filterbank kwargs = Throw e.
Proof.
  unfold Melspectrogram.
  match goal with
  | |- exists e, tbind ?m _ = _ => destruct m as [fb | e]
  end; cbn [tbind]; [| eexists; reflexivity].
  destruct (kw_power kwargs); cbn [tbind]; [eexists; reflexivity |].
  match goal with
  | |- exists e, tbind ?m _ = _ => destruct m as [r | e] eqn:E
  end; cbn [tbind]; [| eexists; reflexivity].
  apply Spectrogram_returns_none in E. destruct E as [-> _].
  eexists. reflexivity.
Qed.

(** X29.  An [AmplitudeToDb] layer exists only for [ref > amin]; with a
    positive [amin] its reference is then positive too, the layer maps the
    reference amplitude to 0 dB, and a [DbToAmplitude] layer of the same
    reference maps its output for [x] back to [max(x, amin)]. *)
Theorem AmplitudeToDb_layer (ref amin x : R) :
  (ref <= amin -> AmplitudeToDb_init ref amin = Throw AssertionError) /\
  (0 < amin -> amin < ref ->
   exists self d,
     AmplitudeToDb_init ref amin = Return self /\
     AmplitudeToDb_forward self ref = Some 0 /\
     AmplitudeToDb_forward self x = Some d /\
     DbToAmplitude_forward ref d = Some (Rmax x amin)).
Proof.
  split.
  - intros H. unfold AmplitudeToDb_init.
    destruct (Rlt_dec amin ref) as [L | _]; [lra | reflexivity].
  - intros Ha Hlt. assert (Hr : 0 < ref) by lra.
    unfold AmplitudeToDb_init.
    destruct (Rlt_dec amin ref) as [_ | N]; [| contradiction].
    do 2 eexists. split; [reflexivity |].
    unfold AmplitudeToDb_forward, DbToAmplitude_forward. cbn [a2d_ref a2d_amin].
    split; [| split].
    + rewrite amplitude_to_db_value by assumption.
      rewrite (Rmax_left ref amin) by lra. f_equal. lra.
    + apply amplitude_to_db_value; assumption.
    + rewrite db_to_amplitude_value by exact Hr. f_equal.
      assert (M : 0 < Rmax x amin)
        by (apply Rlt_le_trans with amin; [exact Ha | apply Rmax_r]).
      replace (10 * (ln (Rmax x amin) / ln 10 - ln ref / ln 10) / 10
               + ln ref / ln 10)
        with (ln (Rmax x amin) / ln 10) by (assert (L := ln_10_pos); field; lra).
      apply Rpower_10_log10. exact M.
Qed.

Lemma AmplitudeToDb_layer_witness :
  AmplitudeToDb_init (1 / 10) 1 = Throw AssertionError /\
  exists self d,
    AmplitudeToDb_init 1 (1 / 10) = Return self /\
    AmplitudeToDb_forward self 1 = Some 0 /\
    AmplitudeToDb_forward self 5 = Some d /\
    DbToAmplitude_forward 1 d = Some (Rmax 5 (1 / 10)).
Proof.
  destruct (AmplitudeToDb_layer (1 / 10) 1 0) as [H _].
  destruct (AmplitudeToDb_layer 1 (1 / 10) 5) as [_ H'].
  split; [apply H; lra | apply H'; lra].
Defined.

(** ** The state dictionary without buffers *)

Lemma append_injective (p a b : String.string) :
  String.append p a = String.append p b -> a = b.
Proof.
  induction p as [| c p IH]; cbn; intros H; [exact H |].
  injection H as H. apply IH. exact H.
Qed.

Lemma filter_twice {A : Type} (f g : A -> bool) (l : list A) :
  filter f (filter g l) = filter (fun x => g x && f x) l.
Proof.
  induction l as [| x l IH]; cbn; [reflexivity |].
  destruct (g x); cbn; [destruct (f x) |]; rewrite IH; reflexivity.
Qed.

Lemma fold_throw {V : Type} (buffers : list String.string)
    (prefix : String.string) (e : exn) :
  fold_left (fun ret k => ret <-! ret ;; @dict_del V ret (String.append prefix k))
            buffers (Throw e) = Throw e.
Proof. induction buffers as [| k l IH]; cbn; [reflexivity | exact IH]. Qed.

Lemma dict_has_In {V : Type} (d : dict V) (k : String.string) :
  dict_has d k = true <-> In k (map fst d).
Proof.
  unfold dict_has. rewrite existsb_exists. split.
  - intros [kv [Hin He]]. apply String.eqb_eq in He. subst.
    apply in_map. exact Hin.
  - intros H. apply in_map_iff in H. destruct H as [kv [<- Hin]].
    exists kv. split; [exact Hin | apply String.eqb_refl].
Qed.

Lemma keys_after_del {V : Type} (d : dict V) (k k' : String.string) :
  In k' (map fst (filter (fun kv => negb (String.eqb (fst kv) k)) d))
  <-> (In k' (map fst d) /\ k' <> k).
Proof.
  rewrite !in_map_iff. split.
  - intros [kv [<- H]]. apply filter_In in H. destruct H as [Hin Hne].
    split; [exists kv; auto |].
    apply negb_true_iff, String.eqb_neq in Hne. exact Hne.
  - intros [[kv [<- Hin]] Hne]. exists kv. split; [reflexivity |].
    apply filter_In. split; [exact Hin |].
    apply negb_true_iff, String.eqb_neq. exact Hne.
Qed.

(** X30.  [state_dict] returns the dictionary of the module without one
    entry: for distinct buffer names that all have their key [prefix + name]
    in the dictionary, exactly those keys are removed and every other entry
    stays, in order; as soon as the key of one buffer is missing from the
    dictionary the call raises [KeyError]. *)
Theorem state_dict_without_buffers {V : Type} (ret : dict V)
    (buffers : list String.string) (prefix : String.string) :
  (NoDup buffers ->
   Forall (fun k => In (String.append prefix k) (map fst ret)) buffers ->
   exists out,
     state_dict ret buffers prefix = Return out /\
     out = filter (fun kv =>
                     negb (existsb (String.eqb (fst kv))
                                   (map (String.append prefix) buffers))) ret /\
     (forall k, In k buffers -> ~ In (String.append prefix k) (map fst out))) /\
  (Exists (fun k => ~ In (String.append prefix k) (map fst ret)) buffers ->
   state_dict ret buffers prefix = Throw KeyError).
Proof.
  split.
  - intros Hnd Hall.
    assert (E : state_dict ret buffers prefix
                = Return (filter (fun kv =>
                            negb (existsb (String.eqb (fst kv))
                                          (map (String.append prefix) buffers)))
                            ret)).
    { unfold state_dict. revert ret Hall.
      induction Hnd as [| k l Hk Hnd IH]; intros ret Hall.
      - cbn. f_equal. symmetry. apply forallb_filter_id.
        apply forallb_forall. intros kv _. reflexivity.
      - inversion Hall as [| ? ? Hin Hrest]; subst.
        cbn [fold_left tbind]. unfold dict_del at 2.
        replace (dict_has ret (String.append prefix k)) with true
          by (symmetry; apply dict_has_In; exact Hin).
        rewrite IH.
        + f_equal. rewrite filter_twice. apply filter_ext. intros kv.
          cbn [map existsb]. rewrite negb_orb. reflexivity.
        + apply Forall_forall. intros k' Hk'. apply keys_after_del. split.
          * rewrite Forall_forall in Hrest. apply Hrest. exact Hk'.
          * intros Heq. apply append_injective in Heq. subst. contradiction. }
    eexists. split; [exact E |]. split; [reflexivity |].
    intros k Hk Hin. apply in_map_iff in Hin. destruct Hin as [kv [Hkey Hf]].
    apply filter_In in Hf. destruct Hf as [_ Hneg].
    apply negb_true_iff in Hneg.
    assert (T : existsb (String.eqb (fst kv)) (map (String.append prefix) buffers)
                = true).
    { apply existsb_exists. exists (String.append prefix k). split.
      - apply in_map. exact Hk.
      - rewrite Hkey. apply String.eqb_refl. }
    congruence.
  - intros Hex. unfold state_dict. revert ret Hex.
    induction buffers as [| k l IH]; intros ret Hex; [inversion Hex |].
    cbn [fold_left tbind]. unfold dict_del at 2.
    destruct (dict_has ret (String.append prefix k)) eqn:Hhas.
    + apply IH. inversion Hex as [? ? Hmiss | ? ? Hrest]; subst.
      * exfalso. apply Hmiss. apply dict_has_In. exact Hhas.
      * apply Exists_exists in Hrest. destruct Hrest as [k' [Hk' Hmiss]].
        apply Exists_exists. exists k'. split; [exact Hk' |].
        intros Hin. apply Hmiss. apply keys_after_del in Hin. apply Hin.
    + apply fold_throw.
Qed.

Lemma state_dict_without_buffers_witness :
  exists out,
    state_dict [("stft.window"%string, 1%nat); ("proj.weight"%string, 2%nat)]
               ["window"%string] "stft."%string = Return out /\
    out = filter (fun kv =>
                    negb (existsb (String.eqb (fst kv))
                                  (map (String.append "stft."%string)
                                       ["window"%string])))
                 [("stft.window"%string, 1%nat); ("proj.weight"%string, 2%nat)] /\
    (forall k, In k ["window"%string] ->
               ~ In (String.append "stft."%string k) (map fst out)).
Proof.
  destruct (state_dict_without_buffers
              [("stft.window"%string, 1%nat); ("proj.weight"%string, 2%nat)]
              ["window"%string] "stft."%string) as [H _].
  apply H.
  - constructor; [intros [] | constructor].
  - constructor; [cbn; auto | constructor].
Defined.

Lemma Spectrogram_never_builds_witness :
  PyNone = PyNone /\ false = false.
Proof.
  destruct (Spectrogram_never_builds 2048 None None PyNone 0 Reflect 1 false)
    as [H _].
  apply (H PyNone). reflexivity.
Defined.
